(** * Reading services of torchdata.dataloader2 (reading_service.py)

    Shallow embedding of [_IterateQueueDataPipes],
    [PrototypeMultiProcessingReadingService] and
    [DistributedReadingService]. *)

From Stdlib Require Import String List Permutation Lia Bool Arith ZArith.
Import ListNotations.

(** ** The merge iterator [_IterateQueueDataPipes.__iter__] *)
Module MergeIter.

Section Merge.

Variable A : Type.

(** One answer of [dp.nonblocking_next()] on a [QueueWrapper]: a value, or
    [communication.iter.NotAvailable] raised.  A worker's behaviour is the
    finite list of answers it gives; once the list is used up, the next
    call raises [StopIteration]. *)
Inductive resp : Type :=
| RValue (v : A)
| RNotAvailable.

(** What a single call of [nonblocking_next] produced, as seen by the loop. *)
Inductive outcome : Type :=
| OValue (v : A)
| OBusy
| OStop.

(** Observable events of the loop: a call of [dp.nonblocking_next()] on the
    datapipe with identity [i] and its outcome, [time.sleep(0.001)], and
    [yield value]. *)
Inductive event : Type :=
| EPoll (i : nat) (o : outcome)
| ESleep
| EYield (v : A).

(** A datapipe of the list [self.datapipes]: its identity (Python object
    identity, used by [dp not in exclude_datapipes]) and its remaining
    answers. *)
Local Abbreviation dp := (prod nat (list resp)).

(** The inner [while forever:] loop for one datapipe [i], each round one
    call of [dp.nonblocking_next()] taking the next answer: on a value, yield
    it and stop; on [StopIteration], stop with the datapipe to be excluded
    ([None]); on [NotAvailable], sleep and call again.  Returns the events,
    the value (if any) and the remaining answers. *)
Fixpoint poll (i : nat) (s : list resp) : list event * option A * list resp :=
  match s with
  | [] => ([EPoll i OStop], None, [])
  | RValue v :: s' => ([EPoll i (OValue v); EYield v], Some v, s')
  | RNotAvailable :: s' =>
      let '(t, r, s'') := poll i s' in (EPoll i OBusy :: ESleep :: t, r, s'')
  end.

Definition mem (i : nat) (l : list nat) : bool := existsb (Nat.eqb i) l.

(** The [for dp in self.datapipes:] loop: one scan over all datapipes,
    skipping the excluded ones; [exclude_datapipes.append(dp)] on
    [StopIteration]. *)
Fixpoint scan (ws : list dp) (excl : list nat)
  : list event * list dp * list nat :=
  match ws with
  | [] => ([], [], excl)
  | (i, s) :: ws' =>
      if mem i excl then
        let '(t, ws2, e2) := scan ws' excl in (t, (i, s) :: ws2, e2)
      else
        let '(t, r, s') := poll i s in
        let excl' := match r with None => excl ++ [i] | Some _ => excl end in
        let '(t2, ws2, e2) := scan ws' excl' in (t ++ t2, (i, s') :: ws2, e2)
  end.

(** The outer [while len(exclude_datapipes) < len(self.datapipes):] loop,
    run with [fuel] iterations at most ([None] when the fuel runs out). *)
Fixpoint loop (fuel : nat) (ws : list dp) (excl : list nat)
  : option (list event) :=
  match fuel with
  | 0 => None
  | S f =>
      if length excl <? length ws then
        let '(t, ws', excl') := scan ws excl in
        match loop f ws' excl' with
        | Some t' => Some (t ++ t')
        | None => None
        end
      else Some []
  end.

(** The datapipes built by [initialize]: one fresh [QueueWrapper] per
    worker, worker [k] having identity [k]. *)
Definition datapipes_of (streams : list (list resp)) : list dp :=
  combine (seq 0 (length streams)) streams.

Definition sumlen (ws : list dp) : nat :=
  fold_right (fun w n => length (snd w) + n) 0 ws.

(** Enough iterations of the outer loop for every run. *)
Definition fuel_bound (streams : list (list resp)) : nat :=
  S (sumlen (datapipes_of streams) + length streams).

(** [__iter__] run to its end: the events it produces. *)
Definition iterate (streams : list (list resp)) : option (list event) :=
  loop (fuel_bound streams) (datapipes_of streams) [].

(** The state ([self.datapipes] with their remaining answers, and
    [exclude_datapipes]) after [n] passes of the [for] loop. *)
Fixpoint state_after (n : nat) (ws : list dp) (excl : list nat)
  : list dp * list nat :=
  match n with
  | 0 => (ws, excl)
  | S n' => let '(_, ws', e') := scan ws excl in state_after n' ws' e'
  end.

(** The values yielded by a run. *)
Fixpoint yields (t : list event) : list A :=
  match t with
  | [] => []
  | EYield v :: t' => v :: yields t'
  | _ :: t' => yields t'
  end.

(** The values a worker produces. *)
Fixpoint values (s : list resp) : list A :=
  match s with
  | [] => []
  | RValue v :: s' => v :: values s'
  | RNotAvailable :: s' => values s'
  end.

(** All the items of the datapipes. *)
Definition allvals (ws : list dp) : list A :=
  flat_map (fun w => values (snd w)) ws.

Definition excl_empty (ws : list dp) (excl : list nat) : Prop :=
  forall j s, In (j, s) ws -> In j excl -> s = [].

(** The invariant of the outer loop: identities are distinct, the exclusion
    list holds distinct identities of the datapipes, and an excluded
    datapipe has no answers left. *)
Definition merge_inv (ws : list dp) (excl : list nat) : Prop :=
  NoDup (map fst ws) /\ NoDup excl /\ incl excl (map fst ws) /\ excl_empty ws excl.

End Merge.

Abbreviation dp A := (prod nat (list (resp A))).

Arguments RValue {A} v.
Arguments RNotAvailable {A}.
Arguments OValue {A} v.
Arguments OBusy {A}.
Arguments OStop {A}.
Arguments EPoll {A} i o.
Arguments ESleep {A}.
Arguments EYield {A} v.
Arguments poll {A} i s.
Arguments scan {A} ws excl.
Arguments loop {A} fuel ws excl.
Arguments datapipes_of {A} streams.
Arguments sumlen {A} ws.
Arguments fuel_bound {A} streams.
Arguments iterate {A} streams.
Arguments state_after {A} n ws excl.
Arguments allvals {A} ws.
Arguments excl_empty {A} ws excl.
Arguments merge_inv {A} ws excl.
Arguments yields {A} t.
Arguments values {A} s.

End MergeIter.

(** ** [PrototypeMultiProcessingReadingService] *)
Module PMRS.

(** A datapipe as the reading service sees it: an input pipeline (opaque),
    the pipeline after [graph_settings.apply_sharding(dp, n, i)] (an
    external capability, kept as a record of its arguments), and the
    [IterableWrapper(_IterateQueueDataPipes(self.datapipes))] returned by
    [initialize]: it holds the service's own [self.datapipes] list object,
    not a copy, so it iterates whatever that list holds when iterated. *)
Inductive pipe : Type :=
| Pipe (name : string)
| ShardedPipe (num_of_instances instance_id : nat) (p : pipe)
| MergedDatapipes.

(** Messages put on a request queue. *)
Inductive msg : Type :=
| TerminateRequest
| ResetIteratorRequest.

(** A worker process as created by [SpawnProcessForDataPipeline]: its
    identity, its request and response queues, and the pipeline it runs. *)
Record proc : Type := mkProc {
  pid : nat;
  req_q : nat;
  res_q : nat;
  worker_pipe : pipe
}.

(** [QueueWrapper(IterDataPipeQueueProtocolClient(req_queue, res_queue))]. *)
Record qwrapper : Type := mkQW {
  qw_req : nat;
  qw_res : nat
}.

(** The fields of the service object. *)
Record service : Type := mkService {
  num_workers : nat;
  multiprocessing_context : option string;
  processes : list proc;
  datapipes : list qwrapper
}.

(** The controller's surroundings: the next fresh object identity, the
    started processes, the messages put on queues (in order) and the
    joined processes. *)
Record world : Type := mkWorld {
  next_id : nat;
  started : list nat;
  puts : list (nat * msg);
  joined : list nat
}.

Definition set_processes (st : service) (ps : list proc) : service :=
  mkService (num_workers st) (multiprocessing_context st) ps (datapipes st).

(** [init_datapipe_process(num_workers, worker_id, datapipe)]. *)
Definition init_datapipe_process (num_workers worker_id : nat) (dp : pipe) : pipe :=
  ShardedPipe num_workers worker_id dp.

(** Modelled from the spec: [communication.eventloop.SpawnProcessForDataPipeline]
    (not in this source tree) creates a new process that runs the pipeline
    after calling [call_inside_process] on it, before producing any item, and
    a freshly created request/response queue pair for it.  [call_inside_process]
    is [functools.partial(init_datapipe_process, num_workers, worker_id)],
    given here by its two bound arguments. *)
Definition SpawnProcessForDataPipeline (w : world) (dp : pipe)
  (call_inside_process : nat * nat) : proc * world :=
  let n := next_id w in
  (mkProc n (n + 1) (n + 2)
     (init_datapipe_process (fst call_inside_process) (snd call_inside_process) dp),
   mkWorld (n + 3) (started w) (puts w) (joined w)).

(** [process.start()]. *)
Definition start (w : world) (p : proc) : world :=
  mkWorld (next_id w) (started w ++ [pid p]) (puts w) (joined w).

(** One round of the [for worker_id in range(self.num_workers)] loop. *)
Definition init_worker (dp : pipe) (sw : service * world) (worker_id : nat)
  : service * world :=
  let '(st, w) := sw in
  let '(process, w1) := SpawnProcessForDataPipeline w dp (num_workers st, worker_id) in
  let w2 := start w1 process in
  (mkService (num_workers st) (multiprocessing_context st)
     (processes st ++ [process])
     (datapipes st ++ [mkQW (req_q process) (res_q process)]), w2).

(** [initialize(datapipe)]. *)
Definition initialize (st : service) (w : world) (dp : pipe) : pipe * service * world :=
  if num_workers st =? 0 then (dp, st, w)
  else
    let '(st', w') := fold_left (init_worker dp) (seq 0 (num_workers st)) (st, w) in
    (MergedDatapipes, st', w').

(** The [QueueWrapper] on the queues of a spawned process. *)
Definition wrapper_of (p : proc) : qwrapper := mkQW (req_q p) (res_q p).

(** [initialize_iteration()]: [dp.reset_iterator()] on every datapipe, which
    puts a reset request on its request queue. *)
Definition initialize_iteration (st : service) (w : world) : world :=
  mkWorld (next_id w) (started w)
    (puts w ++ map (fun q => (qw_req q, ResetIteratorRequest)) (datapipes st))
    (joined w).

(** Result of [queue.get(timeout=...)] when the next message arrives at
    time [arrival] ([None]: never).  [timeout = None] is the default of
    [multiprocessing.Queue.get]: wait as long as it takes. *)
Inductive get_result : Type :=
| Got (t : nat)
| WaitsForever
| RaisesEmpty.

Definition queue_get (timeout : option nat) (arrival : option nat) : get_result :=
  match timeout, arrival with
  | None, Some t => Got t
  | None, None => WaitsForever
  | Some d, Some t => if t <=? d then Got t else RaisesEmpty
  | Some _, None => RaisesEmpty
  end.

(** How [finalize] ends: normally, blocked forever on the response queue of
    a process, or with an exception raised. *)
Inductive fin_result : Type :=
| FinDone (st : service) (w : world)
| FinBlocked (pid : nat) (w : world)
| FinRaised (w : world).

(** How the cleaning loop ends. *)
Inductive clean_result : Type :=
| CleanOk (w : world)
| CleanBlocked (pid : nat) (w : world)
| CleanRaised (w : world).

(** The [for ... in self.processes: clean_me(...)] loop: put a
    [TerminateRequest], [res_queue.get()] (no timeout), [process.join()].
    [arrival q] is the time (in minutes) the reply appears on queue [q]. *)
Fixpoint clean_all (arrival : nat -> option nat) (ps : list proc) (w : world)
  : clean_result :=
  match ps with
  | [] => CleanOk w
  | p :: ps' =>
      let w1 := mkWorld (next_id w) (started w)
                  (puts w ++ [(req_q p, TerminateRequest)]) (joined w) in
      match queue_get None (arrival (res_q p)) with
      | Got _ =>
          clean_all arrival ps'
            (mkWorld (next_id w1) (started w1) (puts w1) (joined w1 ++ [pid p]))
      | WaitsForever => CleanBlocked (pid p) w1
      | RaisesEmpty => CleanRaised w1
      end
  end.

(** [finalize()]. *)
Definition finalize (arrival : nat -> option nat) (st : service) (w : world)
  : fin_result :=
  match clean_all arrival (processes st) w with
  | CleanOk w' => FinDone (set_processes st []) w'
  | CleanBlocked p w' => FinBlocked p w'
  | CleanRaised w' => FinRaised w'
  end.

End PMRS.

(** ** [DistributedReadingService] *)
Module Dist.

(** A datapipe graph, seen from its tail: a source, a [sharding_filter]
    node with the sharding set on it (if any), another stage, or a
    [FullSyncIterDataPipe] with its timeout. *)
Inductive dpipe : Type :=
| Source (name : string)
| ShardingFilter (setting : option (nat * nat)) (src : dpipe)
| Stage (name : string) (src : dpipe)
| FullSync (timeout : nat) (src : dpipe).

(** [torch.utils.data.graph_settings.apply_sharding(dp, n, i)], a library
    capability outside this source tree: it sets the sharding of every
    [sharding_filter] node of the graph in place and keeps the graph's
    shape, in particular the class of its tail. *)
Fixpoint apply_sharding (dp : dpipe) (num_of_instances instance_id : nat) : dpipe :=
  match dp with
  | Source n => Source n
  | ShardingFilter _ src =>
      ShardingFilter (Some (num_of_instances, instance_id))
        (apply_sharding src num_of_instances instance_id)
  | Stage n src => Stage n (apply_sharding src num_of_instances instance_id)
  | FullSync t src => FullSync t (apply_sharding src num_of_instances instance_id)
  end.

(** [isinstance(datapipe, FullSync)]. *)
Definition is_fullsync (dp : dpipe) : bool :=
  match dp with
  | FullSync _ _ => true
  | _ => false
  end.

(** The [torch.distributed] runtime of the process. *)
Record runtime : Type := mkRuntime {
  is_available : bool;
  is_initialized : bool;
  get_world_size : nat;
  get_rank : nat
}.

(** A process group made by [dist.new_group(backend="gloo", timeout=...)]. *)
Record group : Type := mkGroup {
  backend : string;
  group_timeout : nat
}.

(** The fields of the service object. *)
Record dservice : Type := mkDService {
  world_size : nat;
  rank : nat;
  datapipe : option dpipe;
  timeout : nat;
  pg : option group
}.

Inductive exn : Type :=
| RuntimeError (message : string).

Inductive result (X : Type) : Type :=
| Ok (x : X)
| Raise (e : exn).

Arguments Ok {X} x.
Arguments Raise {X} e.

(** [DistributedReadingService(timeout)]. *)
Definition make (rt : runtime) (timeout : nat) : result dservice :=
  if negb (is_available rt) then
    Raise (RuntimeError "Torch Distributed is required to be available")
  else Ok (mkDService 1 0 None timeout None).

(** [initialize(datapipe)]. *)
Definition initialize (st : dservice) (rt : runtime) (dp : dpipe)
  : result (dpipe * dservice) :=
  if negb (is_available rt && is_initialized rt) then
    Raise (RuntimeError "Torch Distributed is required to be initialized")
  else
    let ws := get_world_size rt in
    let r := get_rank rt in
    let g := mkGroup "gloo" (timeout st) in
    let dp1 := apply_sharding dp ws r in
    let dp2 := if negb (is_fullsync dp1) then FullSync (timeout st) dp1 else dp1 in
    Ok (dp2, mkDService ws r (Some dp2) (timeout st) (Some g)).

(** The number of [FullSync] stages at the tail of a graph. *)
Fixpoint tail_fullsyncs (dp : dpipe) : nat :=
  match dp with
  | FullSync _ src => S (tail_fullsyncs src)
  | _ => 0
  end.

End Dist.

(** ** Per-worker view of a merge trace *)
Module MergeTrace.
Import MergeIter.

(** The values the run obtained from the datapipe with identity [i], in
    the order of the calls. *)
Fixpoint value_polls {A : Type} (i : nat) (t : list (event A)) : list A :=
  match t with
  | [] => []
  | EPoll j (OValue v) :: t' => if Nat.eqb i j then v :: value_polls i t' else value_polls i t'
  | _ :: t' => value_polls i t'
  end.

End MergeTrace.

(** ** The rest of [DistributedReadingService] *)
Module DistIter.
Import Dist.

(** How [initialize_iteration] ends on one rank. *)
Inductive iter_result : Type :=
| IterOk (st : dservice) (seed : Z)
| AssertionError.

(** [initialize_iteration()] on one rank.  [_share_seed()] draws a value
    and calls [dist.broadcast(shared_seed, src=0, group=self._pg)], which
    delivers [bcast], the value drawn by rank 0; the group used is returned
    ([None]: the default group).  Then [assert self._datapipe is not None],
    and [graph_settings.apply_random_seed] seeds the random stages of the
    graph in place and returns the same graph, stored back; the seed it
    used is returned with the new state. *)
Definition initialize_iteration (st : dservice) (bcast : Z)
  : option group * iter_result :=
  (pg st,
   match datapipe st with
   | None => AssertionError
   | Some dp => IterOk (mkDService (world_size st) (rank st) (Some dp)
                          (timeout st) (pg st)) bcast
   end).

(** [finalize()]: [self._pg = None]. *)
Definition finalize (st : dservice) : dservice :=
  mkDService (world_size st) (rank st) (datapipe st) (timeout st) None.

End DistIter.

(** ** [MultiProcessingReadingService] *)
Module MPRS.

Section M.

Variable A : Type.

(** [_collate_no_op(batch)]: [batch[0]]; [None] is the [IndexError] of an
    empty batch. *)
Definition _collate_no_op (batch : list A) : option A :=
  match batch with
  | x :: _ => Some x
  | [] => None
  end.

(** The [torch.utils.data.DataLoader] object the service builds: the
    arguments it is given and its [_iterator] attribute (the identity of
    its live iterator, if any). *)
Record dataloader : Type := mkDL {
  dl_dataset : list A;
  dl_num_workers : nat;
  dl_pin_memory : bool;
  dl_timeout : nat;
  dl_worker_init_fn : option (nat -> unit);
  dl_multiprocessing_context : option string;
  dl_prefetch_factor : nat;
  dl_persistent_workers : bool;
  dl_collate_fn : list A -> option A;
  dl_batch_size : nat;
  _iterator : option nat
}.

(** The fields of the service object ([timeout], a float in the source,
    as a whole number of seconds: it is only passed on). *)
Record mservice : Type := mkMService {
  num_workers : nat;
  pin_memory : bool;
  timeout : nat;
  worker_init_fn : option (nat -> unit);
  multiprocessing_context : option string;
  prefetch_factor : nat;
  persistent_workers : bool;
  dl_ : option dataloader
}.

Definition set_dl (st : mservice) (d : option dataloader) : mservice :=
  mkMService (num_workers st) (pin_memory st) (timeout st) (worker_init_fn st)
    (multiprocessing_context st) (prefetch_factor st) (persistent_workers st) d.

(** [MultiProcessingReadingService(...)] with its default arguments. *)
Definition make_default : mservice :=
  mkMService 0 false 0 None None 2 false None.

(** [initialize(datapipe)]: a new [DataLoader] (no iterator yet) stored in
    [self.dl_], and returned wrapped in an [IterableWrapper]. *)
Definition initialize (st : mservice) (datapipe : list A) : dataloader * mservice :=
  let d := mkDL datapipe (num_workers st) (pin_memory st) (timeout st)
             (worker_init_fn st) (multiprocessing_context st) (prefetch_factor st)
             (persistent_workers st) _collate_no_op 1 None in
  (d, set_dl st (Some d)).

(** [finalize()]: with persistent workers and a live iterator, call
    [_shutdown_workers()] on it (its identity is returned) and drop it. *)
Definition finalize (st : mservice) : mservice * list nat :=
  match persistent_workers st, dl_ st with
  | true, Some d =>
      match _iterator d with
      | Some it =>
          (set_dl st (Some (mkDL (dl_dataset d) (dl_num_workers d) (dl_pin_memory d)
                              (dl_timeout d) (dl_worker_init_fn d)
                              (dl_multiprocessing_context d) (dl_prefetch_factor d)
                              (dl_persistent_workers d) (dl_collate_fn d)
                              (dl_batch_size d) None)), [it])
      | None => (st, [])
      end
  | _, _ => (st, [])
  end.

End M.

Arguments _collate_no_op {A} batch.
Arguments mkDL {A}.
Arguments mkMService {A}.
Arguments set_dl {A} st d.
Arguments make_default {A}.
Arguments initialize {A} st datapipe.
Arguments finalize {A} st.

End MPRS.

(** ** Facts about the merge iterator *)
Module MergeIterFacts.
Import MergeIter.

Section Facts.

Context {A : Type}.

(** The spec's example: workers producing [a,b], [c], [d,e,f] give
    a, c, d, b, e, f. *)
Example iterate_spec_example :
  option_map (@yields nat)
    (iterate [[RValue 1; RValue 2]; [RValue 3]; [RValue 4; RValue 5; RValue 6]])
  = Some [1; 3; 4; 2; 5; 6].
Proof. reflexivity. Qed.

Lemma mem_spec (i : nat) (l : list nat) : mem i l = true <-> In i l.
Proof.
  unfold mem. rewrite existsb_exists. split.
  - intros [x [Hx Heq]]. apply Nat.eqb_eq in Heq. subst. exact Hx.
  - intros H. exists i. split; [exact H | apply Nat.eqb_refl].
Qed.

Lemma mem_false (i : nat) (l : list nat) : mem i l = false <-> ~ In i l.
Proof.
  rewrite <- mem_spec. destruct (mem i l); split; congruence.
Qed.

Lemma yields_app (a b : list (event A)) : yields (a ++ b) = yields a ++ yields b.
Proof.
  induction a as [|[? ?| |?] a IHa]; simpl; try rewrite IHa; reflexivity.
Qed.

(** The inner loop consumes the answers it reads and yields the value it
    found; it stops for good only on an exhausted worker. *)
Lemma poll_values (i : nat) (s : list (resp A)) t r s' :
  poll i s = (t, r, s') ->
  yields t ++ values s' = values s /\
  match r with
  | Some _ => length s' < length s
  | None => s' = []
  end.
Proof.
  revert t r s'. induction s as [|[v|] s IH]; intros t r s' H; simpl in H.
  - inversion H; subst. simpl. auto.
  - inversion H; subst. simpl. auto.
  - destruct (poll i s) as [[t0 r0] s0] eqn:E. inversion H; subst.
    destruct (IH _ _ _ eq_refl) as [H1 H2]. simpl. split; [exact H1|].
    destruct r; [lia | exact H2].
Qed.

Lemma scan_ids (ws : list (dp A)) excl t ws2 e2 :
  scan ws excl = (t, ws2, e2) -> map fst ws2 = map fst ws.
Proof.
  revert excl t ws2 e2. induction ws as [|[i s] ws IH]; intros excl t ws2 e2 H;
    simpl in H.
  - inversion H; subst. reflexivity.
  - destruct (mem i excl).
    + destruct (scan ws excl) as [[t1 w1] x1] eqn:E. inversion H; subst.
      simpl. f_equal. eapply IH. exact E.
    + destruct (poll i s) as [[t0 r0] s0].
      destruct (scan ws _) as [[t1 w1] x1] eqn:E. inversion H; subst.
      simpl. f_equal. eapply IH. exact E.
Qed.

Lemma scan_excl (ws : list (dp A)) excl t ws2 e2 :
  scan ws excl = (t, ws2, e2) ->
  exists added, e2 = excl ++ added /\ incl added (map fst ws) /\
    (forall j, In j added -> ~ In j excl).
Proof.
  revert excl t ws2 e2. induction ws as [|[i s] ws IH]; intros excl t ws2 e2 H;
    simpl in H.
  - inversion H; subst. exists []. rewrite app_nil_r.
    split; [reflexivity|]. split; [intros x Hx; destruct Hx|]. intros j [].
  - destruct (mem i excl) eqn:Em.
    + destruct (scan ws excl) as [[t1 w1] x1] eqn:E. inversion H; subst.
      destruct (IH _ _ _ _ E) as [ad [H1 [H2 H3]]].
      exists ad. split; [exact H1|]. split; [|exact H3].
      intros x Hx. right. apply H2, Hx.
    + apply mem_false in Em.
      destruct (poll i s) as [[t0 r0] s0].
      destruct (scan ws _) as [[t1 w1] x1] eqn:E. inversion H; subst.
      destruct (IH _ _ _ _ E) as [ad [H1 [H2 H3]]].
      destruct r0 as [v|].
      * exists ad. split; [exact H1|]. split; [|exact H3].
        intros x Hx. right. apply H2, Hx.
      * exists (i :: ad). rewrite H1, <- app_assoc. split; [reflexivity|].
        split.
        -- intros x [Hx|Hx]; [left; exact Hx | right; apply H2, Hx].
        -- intros j [Hj|Hj].
           ++ subst. exact Em.
           ++ intros Hin. apply (H3 j Hj). apply in_or_app. left. exact Hin.
Qed.

Lemma scan_values (ws : list (dp A)) excl t ws2 e2 :
  scan ws excl = (t, ws2, e2) ->
  Permutation (yields t ++ allvals ws2) (allvals ws).
Proof.
  revert excl t ws2 e2. induction ws as [|[i s] ws IH]; intros excl t ws2 e2 H;
    simpl in H.
  - inversion H; subst. reflexivity.
  - destruct (mem i excl).
    + destruct (scan ws excl) as [[t1 w1] x1] eqn:E. inversion H; subst.
      simpl. specialize (IH _ _ _ _ E).
      rewrite app_assoc. rewrite (Permutation_app_comm (yields t) (values s)).
      rewrite <- app_assoc. apply Permutation_app_head. exact IH.
    + destruct (poll i s) as [[t0 r0] s0] eqn:Ep.
      destruct (scan ws _) as [[t1 w1] x1] eqn:E. inversion H; subst.
      destruct (poll_values _ _ _ _ _ Ep) as [Hv _].
      specialize (IH _ _ _ _ E). simpl.
      rewrite yields_app, <- Hv.
      rewrite <- !app_assoc. apply Permutation_app_head.
      rewrite !app_assoc. rewrite (Permutation_app_comm (yields t1) (values s0)).
      rewrite <- !app_assoc. apply Permutation_app_head. exact IH.
Qed.

Lemma scan_nodup (ws : list (dp A)) excl t ws2 e2 :
  scan ws excl = (t, ws2, e2) -> NoDup excl -> NoDup e2.
Proof.
  revert excl t ws2 e2. induction ws as [|[i s] ws IH]; intros excl t ws2 e2 H Hn;
    simpl in H.
  - inversion H; subst. exact Hn.
  - destruct (mem i excl) eqn:Em.
    + destruct (scan ws excl) as [[t1 w1] x1] eqn:E. inversion H; subst.
      eapply IH; eassumption.
    + apply mem_false in Em.
      destruct (poll i s) as [[t0 r0] s0].
      destruct (scan ws _) as [[t1 w1] x1] eqn:E. inversion H; subst.
      eapply IH; [exact E|]. destruct r0; [exact Hn|].
      apply (Permutation_NoDup (Permutation_cons_append excl i)).
      constructor; assumption.
Qed.

Lemma scan_excl_empty (ws : list (dp A)) excl t ws2 e2 :
  scan ws excl = (t, ws2, e2) -> NoDup (map fst ws) ->
  excl_empty ws excl -> excl_empty ws2 e2.
Proof.
  revert excl t ws2 e2. induction ws as [|[i s] ws IH];
    intros excl t ws2 e2 H Hd Hinv; simpl in H.
  - inversion H; subst. intros j s' [].
  - simpl in Hd. inversion Hd as [|? ? Hi Hd']; subst.
    destruct (mem i excl) eqn:Em.
    + apply mem_spec in Em.
      destruct (scan ws excl) as [[t1 w1] x1] eqn:E. inversion H; subst.
      intros j s' [Hj|Hj] Hin.
      * inversion Hj; subst. apply (Hinv j s'); [left; reflexivity | exact Em].
      * refine (IH _ _ _ _ E Hd' _ j s' Hj Hin).
        intros j' s'' Hj' Hin'. apply (Hinv j' s''); [right; exact Hj' | exact Hin'].
    + apply mem_false in Em.
      destruct (poll i s) as [[t0 r0] s0] eqn:Ep.
      destruct (poll_values _ _ _ _ _ Ep) as [_ Hr].
      destruct (scan ws _) as [[t1 w1] x1] eqn:E. inversion H; subst.
      destruct (scan_excl _ _ _ _ _ E) as [ad [Had [Hinc _]]].
      intros j s' [Hj|Hj] Hin.
      * injection Hj as <- <-. destruct r0 as [v|]; [|exact Hr].
        exfalso. rewrite Had in Hin. apply in_app_or in Hin.
        destruct Hin as [Hin|Hin]; [exact (Em Hin) | exact (Hi (Hinc _ Hin))].
      * refine (IH _ _ _ _ E Hd' _ j s' Hj Hin).
        intros j' s'' Hj' Hin'. destruct r0 as [v|].
        -- apply (Hinv j' s''); [right; exact Hj' | exact Hin'].
        -- apply in_app_or in Hin'. destruct Hin' as [Hin'|[Hin'|[]]].
           ++ apply (Hinv j' s''); [right; exact Hj' | exact Hin'].
           ++ subst. exfalso. apply Hi.
              apply (in_map fst) in Hj'. exact Hj'.
Qed.

Lemma scan_inv (ws : list (dp A)) excl t ws2 e2 :
  scan ws excl = (t, ws2, e2) -> merge_inv ws excl -> merge_inv ws2 e2.
Proof.
  intros H [Hd [Hn [Hi He]]].
  pose proof (scan_ids _ _ _ _ _ H) as Hids.
  destruct (scan_excl _ _ _ _ _ H) as [ad [Had [Hinc _]]].
  split; [rewrite Hids; exact Hd|].
  split; [eapply scan_nodup; eassumption|].
  split.
  - rewrite Hids, Had. intros x Hx. apply in_app_or in Hx.
    destruct Hx as [Hx|Hx]; [apply Hi, Hx | apply Hinc, Hx].
  - eapply scan_excl_empty; eassumption.
Qed.

Lemma scan_measure (ws : list (dp A)) excl t ws2 e2 :
  scan ws excl = (t, ws2, e2) ->
  sumlen ws2 + length excl <= sumlen ws + length e2 /\
  ((exists j s, In (j, s) ws /\ ~ In j excl) ->
   sumlen ws2 + length excl < sumlen ws + length e2).
Proof.
  revert excl t ws2 e2. induction ws as [|[i s] ws IH]; intros excl t ws2 e2 H;
    simpl in H.
  - inversion H; subst. split; [lia|]. intros [j [s [[] _]]].
  - destruct (mem i excl) eqn:Em.
    + destruct (scan ws excl) as [[t1 w1] x1] eqn:E. inversion H; subst.
      destruct (IH _ _ _ _ E) as [Hle Hlt]. simpl. split; [lia|].
      intros [j [s' [[Hj|Hj] Hn]]].
      * injection Hj as <- <-. apply mem_spec in Em. contradiction.
      * assert (sumlen w1 + length excl < sumlen ws + length e2)
          by (apply Hlt; exists j, s'; split; assumption).
        lia.
    + destruct (poll i s) as [[t0 r0] s0] eqn:Ep.
      destruct (poll_values _ _ _ _ _ Ep) as [_ Hr].
      destruct (scan ws _) as [[t1 w1] x1] eqn:E. inversion H; subst.
      destruct (IH _ _ _ _ E) as [Hle _]. simpl.
      assert (length s0 + length excl < length s +
                length (match r0 with Some _ => excl | None => excl ++ [i] end)).
      { destruct r0 as [v|].
        - lia.
        - subst s0. rewrite length_app. simpl. lia. }
      split; [lia|]. intros _. lia.
Qed.

(** While a datapipe is not excluded the outer loop goes on. *)
Lemma some_active (ws : list (dp A)) excl :
  merge_inv ws excl -> length excl < length ws ->
  exists j s, In (j, s) ws /\ ~ In j excl.
Proof.
  intros [Hd [Hn [Hi He]]] Hlt.
  destruct (existsb (fun w => negb (mem (fst w) excl)) ws) eqn:Ex.
  - apply existsb_exists in Ex. destruct Ex as [[j s] [Hin Hm]].
    exists j, s. split; [exact Hin|]. simpl in Hm.
    apply negb_true_iff, mem_false in Hm. exact Hm.
  - exfalso.
    assert (Hall : incl (map fst ws) excl).
    { intros j Hj. apply in_map_iff in Hj. destruct Hj as [[j' s] [Heq Hin]].
      simpl in Heq. subst j'.
      destruct (mem j excl) eqn:Em; [apply mem_spec, Em|].
      assert (existsb (fun w => negb (mem (fst w) excl)) ws = true).
      { apply existsb_exists. exists (j, s). simpl. rewrite Em. auto. }
      congruence. }
    pose proof (NoDup_incl_length Hd Hall) as Hl. rewrite length_map in Hl.
    lia.
Qed.

(** When every datapipe is excluded, none has answers left. *)
Lemma all_excluded_empty (ws : list (dp A)) excl :
  merge_inv ws excl -> ~ length excl < length ws -> allvals ws = [].
Proof.
  intros [Hd [Hn [Hi He]]] Hge.
  assert (Hall : incl (map fst ws) excl).
  { apply NoDup_length_incl; [exact Hn | rewrite length_map; lia | exact Hi]. }
  assert (Hs : forall w, In w ws -> snd w = []).
  { intros [j s] Hin. simpl. apply (He j s Hin).
    apply Hall. apply (in_map fst) in Hin. exact Hin. }
  unfold allvals. clear - Hs. induction ws as [|w ws IHw]; [reflexivity|].
  simpl. rewrite (Hs w (or_introl eq_refl)). simpl. apply IHw.
  intros w' Hw'. apply Hs. right. exact Hw'.
Qed.

Lemma loop_ok (fuel : nat) : forall (ws : list (dp A)) excl,
  merge_inv ws excl -> sumlen ws + length ws - length excl < fuel ->
  exists t, loop fuel ws excl = Some t /\ Permutation (yields t) (allvals ws).
Proof.
  induction fuel as [|f IH]; intros ws excl Hinv Hm; [lia|].
  simpl. destruct (length excl <? length ws) eqn:Hg.
  - apply Nat.ltb_lt in Hg.
    destruct (scan ws excl) as [[t ws'] e'] eqn:E.
    pose proof (scan_inv _ _ _ _ _ E Hinv) as Hinv'.
    destruct (scan_measure _ _ _ _ _ E) as [_ Hlt].
    specialize (Hlt (some_active _ _ Hinv Hg)).
    pose proof (scan_ids _ _ _ _ _ E) as Hids.
    assert (Hlen : length ws' = length ws)
      by (rewrite <- (length_map fst ws'), <- (length_map fst ws), Hids; reflexivity).
    assert (He' : length e' <= length ws').
    { destruct Hinv' as [Hd' [Hn' [Hi' _]]].
      rewrite <- (length_map fst ws'). apply NoDup_incl_length; assumption. }
    destruct (IH ws' e' Hinv') as [t' [Ht' Hp]]; [lia|].
    rewrite Ht'. exists (t ++ t'). split; [reflexivity|].
    rewrite yields_app. rewrite <- (scan_values _ _ _ _ _ E).
    apply Permutation_app_head. exact Hp.
  - apply Nat.ltb_ge in Hg. exists []. split; [reflexivity|].
    rewrite (all_excluded_empty ws excl Hinv); [reflexivity | lia].
Qed.

Lemma datapipes_of_shape (streams : list (list (resp A))) (k : nat) :
  map fst (combine (seq k (length streams)) streams) = seq k (length streams) /\
  allvals (combine (seq k (length streams)) streams) = concat (map values streams) /\
  sumlen (combine (seq k (length streams)) streams) =
    fold_right (fun s n => length s + n) 0 streams.
Proof.
  revert k. induction streams as [|s streams IH]; intros k; simpl.
  - auto.
  - destruct (IH (S k)) as [H1 [H2 H3]]. rewrite H1, H3.
    split; [reflexivity|]. split; [|reflexivity].
    unfold allvals in *. simpl. rewrite H2. reflexivity.
Qed.

Lemma datapipes_of_inv (streams : list (list (resp A))) :
  merge_inv (datapipes_of streams) [].
Proof.
  unfold datapipes_of. destruct (datapipes_of_shape streams 0) as [H1 _].
  split; [rewrite H1; apply seq_NoDup|].
  split; [constructor|]. split; [intros x []|]. intros j s _ [].
Qed.

Lemma datapipes_of_length (streams : list (list (resp A))) :
  length (datapipes_of streams) = length streams.
Proof.
  unfold datapipes_of. rewrite length_combine, length_seq. lia.
Qed.

(** ** Positions in a trace *)

Lemma app_split_cons {X : Type} (a b pre post : list X) (x : X) :
  a ++ b = pre ++ x :: post ->
  (exists mid, a = pre ++ x :: mid /\ post = mid ++ b) \/
  (exists pre', b = pre' ++ x :: post /\ pre = a ++ pre').
Proof.
  revert pre. induction a as [|y a IH]; intros pre H; simpl in H.
  - right. exists pre. auto.
  - destruct pre as [|z pre]; simpl in H; injection H as <- H.
    + left. exists a. auto.
    + destruct (IH pre H) as [[mid [H1 H2]]|[pre' [H1 H2]]].
      * left. exists mid. subst. auto.
      * right. exists pre'. subst. auto.
Qed.

Lemma poll_polls (i : nat) (s : list (resp A)) tp r s' j o :
  poll i s = (tp, r, s') -> In (EPoll j o) tp -> j = i /\ (o = OStop -> r = None).
Proof.
  revert tp r s'. induction s as [|[v|] s IH]; intros tp r s' H Hin; simpl in H.
  - inversion H; subst. destruct Hin as [Hin|[]]. inversion Hin; auto.
  - inversion H; subst. destruct Hin as [Hin|[Hin|[]]]; inversion Hin; subst.
    split; [reflexivity | discriminate].
  - destruct (poll i s) as [[t0 r0] s0] eqn:E. inversion H; subst.
    destruct Hin as [Hin|[Hin|Hin]].
    + inversion Hin; subst. split; [reflexivity | discriminate].
    + discriminate.
    + exact (IH _ _ _ eq_refl Hin).
Qed.

(** Nothing comes after [StopIteration] in the inner loop. *)
Lemma poll_stop_last (i : nat) (s : list (resp A)) tp r s' pre j mid :
  poll i s = (tp, r, s') -> tp = pre ++ EPoll j OStop :: mid -> mid = [].
Proof.
  intros H Ht. subst tp. revert r s' pre H.
  induction s as [|[v|] s IH]; intros r s' pre H; simpl in H.
  - injection H as Ht _ _.
    destruct pre as [|? [|? ?]]; simpl in Ht; inversion Ht; auto.
  - injection H as Ht _ _.
    destruct pre as [|? [|? [|? ?]]]; simpl in Ht; inversion Ht.
  - destruct (poll i s) as [[t0 r0] s0] eqn:E. injection H as Ht _ _.
    destruct pre as [|? [|? pre]]; simpl in Ht; inversion Ht; subst.
    eapply IH. reflexivity.
Qed.

Lemma scan_polls (ws : list (dp A)) excl t ws2 e2 j o :
  scan ws excl = (t, ws2, e2) -> In (EPoll j o) t ->
  ~ In j excl /\ In j (map fst ws) /\ (o = OStop -> In j e2).
Proof.
  revert excl t ws2 e2. induction ws as [|[i s] ws IH]; intros excl t ws2 e2 H Hin;
    simpl in H.
  - inversion H; subst. destruct Hin.
  - destruct (mem i excl) eqn:Em.
    + destruct (scan ws excl) as [[t1 w1] x1] eqn:E. inversion H; subst.
      destruct (IH _ _ _ _ E Hin) as [H1 [H2 H3]]. simpl. auto.
    + apply mem_false in Em.
      destruct (poll i s) as [[t0 r0] s0] eqn:Ep.
      destruct (scan ws _) as [[t1 w1] x1] eqn:E. inversion H; subst.
      destruct (scan_excl _ _ _ _ _ E) as [ad [Had _]].
      apply in_app_or in Hin. destruct Hin as [Hin|Hin].
      * destruct (poll_polls _ _ _ _ _ _ _ Ep Hin) as [-> Hs].
        split; [exact Em|]. split; [left; reflexivity|].
        intros Ho. rewrite (Hs Ho) in Had. rewrite Had.
        apply in_or_app. left. apply in_or_app. right. left. reflexivity.
      * destruct (IH _ _ _ _ E Hin) as [H1 [H2 H3]].
        split; [|split; [right; exact H2 | exact H3]].
        intros Hj. apply H1. destruct r0; [exact Hj|]. apply in_or_app. left. exact Hj.
Qed.

Lemma loop_polls (fuel : nat) : forall (ws : list (dp A)) excl t j o,
  loop fuel ws excl = Some t -> In (EPoll j o) t -> ~ In j excl.
Proof.
  induction fuel as [|f IH]; intros ws excl t j o H Hin; simpl in H; [discriminate|].
  destruct (length excl <? length ws); [|inversion H; subst; destruct Hin].
  destruct (scan ws excl) as [[t1 w1] x1] eqn:E.
  destruct (loop f w1 x1) as [t'|] eqn:El; inversion H; subst.
  apply in_app_or in Hin. destruct Hin as [Hin|Hin].
  - exact (proj1 (scan_polls _ _ _ _ _ _ _ E Hin)).
  - intros Hj. apply (IH _ _ _ _ _ El Hin).
    destruct (scan_excl _ _ _ _ _ E) as [ad [Had _]]. rewrite Had.
    apply in_or_app. left. exact Hj.
Qed.

Lemma scan_stop_final (ws : list (dp A)) excl t ws2 e2 pre i post o :
  scan ws excl = (t, ws2, e2) -> t = pre ++ EPoll i OStop :: post ->
  ~ In (EPoll i o) post.
Proof.
  revert excl t ws2 e2 pre. induction ws as [|[k s] ws IH];
    intros excl t ws2 e2 pre H Ht; simpl in H.
  - injection H as <- _ _. destruct pre; discriminate.
  - destruct (mem k excl) eqn:Em.
    + destruct (scan ws excl) as [[t1 w1] x1] eqn:E. injection H as <- _ _.
      eapply IH; [exact E | exact Ht].
    + destruct (poll k s) as [[t0 r0] s0] eqn:Ep.
      destruct (scan ws _) as [[t1 w1] x1] eqn:E. injection H as <- _ _.
      destruct (app_split_cons _ _ _ _ _ Ht) as [[mid [H1 H2]]|[pre' [H1 H2]]].
      * subst post. rewrite (poll_stop_last _ _ _ _ _ _ _ _ Ep H1). simpl.
        assert (Hk : In (EPoll i OStop) t0) by (rewrite H1; apply in_elt).
        destruct (poll_polls _ _ _ _ _ _ _ Ep Hk) as [-> Hr].
        rewrite (Hr eq_refl) in E. intros Hin.
        apply (proj1 (scan_polls _ _ _ _ _ _ _ E Hin)).
        apply in_or_app. right. left. reflexivity.
      * eapply IH; [exact E | exact H1].
Qed.

Lemma loop_stop_final (fuel : nat) : forall (ws : list (dp A)) excl t pre i post o,
  loop fuel ws excl = Some t -> t = pre ++ EPoll i OStop :: post ->
  ~ In (EPoll i o) post.
Proof.
  induction fuel as [|f IH]; intros ws excl t pre i post o H Ht; simpl in H;
    [discriminate|].
  destruct (length excl <? length ws);
    [|injection H as <-; destruct pre; discriminate].
  destruct (scan ws excl) as [[t1 w1] x1] eqn:E.
  destruct (loop f w1 x1) as [t'|] eqn:El; [|discriminate].
  injection H as <-.
  destruct (app_split_cons _ _ _ _ _ Ht) as [[mid [H1 H2]]|[pre' [H1 H2]]].
  - subst post. intros Hin. apply in_app_or in Hin. destruct Hin as [Hin|Hin].
    + apply (scan_stop_final _ _ _ _ _ _ _ _ o E H1). exact Hin.
    + apply (loop_polls _ _ _ _ _ _ El Hin).
      assert (Hk : In (EPoll i OStop) t1) by (rewrite H1; apply in_elt).
      exact (proj2 (proj2 (scan_polls _ _ _ _ _ _ _ E Hk)) eq_refl).
  - eapply IH; [exact El | exact H1].
Qed.

Lemma poll_head (i : nat) (s : list (resp A)) tp r s' :
  poll i s = (tp, r, s') -> exists o rest, tp = EPoll i o :: rest.
Proof.
  destruct s as [|[v|] s]; simpl; intros H.
  - injection H as <- _ _. eauto.
  - injection H as <- _ _. eauto.
  - destruct (poll i s) as [[t0 r0] s0]. injection H as <- _ _. eauto.
Qed.

(** Inside the inner loop: a [NotAvailable] is followed by the sleep and a
    new call on the same datapipe; a value by its [yield]; nothing of the
    same datapipe follows a value or [StopIteration]. *)
Lemma poll_positions (i : nat) (s : list (resp A)) tp r s' pre x mid :
  poll i s = (tp, r, s') -> tp = pre ++ x :: mid ->
  (forall j, x = EPoll j OBusy -> exists o mid', mid = ESleep :: EPoll j o :: mid') /\
  (forall j v, x = EPoll j (OValue v) -> mid = [EYield v]) /\
  (forall j o, x = EPoll j o -> o <> OBusy -> forall o', ~ In (EPoll j o') mid) /\
  (x = ESleep -> exists pre' j, pre = pre' ++ [EPoll j OBusy]).
Proof.
  intros H Ht. subst tp. revert r s' pre H.
  induction s as [|[v|] s IH]; intros r s' pre H; simpl in H.
  - injection H as Ht _ _.
    destruct pre as [|? [|? ?]]; simpl in Ht; inversion Ht; subst.
    repeat split; intros; try discriminate.
    intros [].
  - injection H as Ht _ _.
    destruct pre as [|? [|? [|? ?]]]; simpl in Ht; inversion Ht; subst.
    + repeat split; intros; try discriminate.
      * congruence.
      * intros [Hc|[]]. discriminate.
    + repeat split; intros; discriminate.
  - destruct (poll i s) as [[t0 r0] s0] eqn:E. injection H as Ht _ _.
    destruct pre as [|? [|? pre]]; simpl in Ht; inversion Ht; subst.
    + destruct (poll_head _ _ _ _ _ E) as [o [rest Hr]].
      repeat split; intros; try discriminate.
      * injection H as <-. exists o, rest. rewrite Hr. reflexivity.
      * injection H as <- <-. contradiction.
    + repeat split; intros; try discriminate.
      exists [], i. reflexivity.
    + destruct (IH _ _ _ eq_refl) as [H1 [H2 [H3 H4]]].
      repeat split; [exact H1 | exact H2 | exact H3 |].
      intros Hx. destruct (H4 Hx) as [pre' [j Hp]].
      exists (EPoll i OBusy :: ESleep :: pre'), j. rewrite Hp. reflexivity.
Qed.

(** The same positions in one pass of the [for] loop. *)
Lemma scan_positions (ws : list (dp A)) excl t ws2 e2 pre x post :
  NoDup (map fst ws) -> scan ws excl = (t, ws2, e2) -> t = pre ++ x :: post ->
  (forall j, x = EPoll j OBusy -> exists o post', post = ESleep :: EPoll j o :: post') /\
  (forall j v, x = EPoll j (OValue v) -> exists post', post = EYield v :: post') /\
  (forall j o, x = EPoll j o -> o <> OBusy -> forall o', ~ In (EPoll j o') post) /\
  (x = ESleep -> exists pre' j, pre = pre' ++ [EPoll j OBusy]).
Proof.
  revert excl t ws2 e2 pre. induction ws as [|[k s] ws IH];
    intros excl t ws2 e2 pre Hd H Ht; simpl in H; simpl in Hd.
  - injection H as <- _ _. destruct pre; discriminate.
  - apply NoDup_cons_iff in Hd. destruct Hd as [Hk Hd'].
    destruct (mem k excl) eqn:Em.
    + destruct (scan ws excl) as [[t1 w1] x1] eqn:E. injection H as <- _ _.
      exact (IH _ _ _ _ _ Hd' E Ht).
    + destruct (poll k s) as [[t0 r0] s0] eqn:Ep.
      destruct (scan ws _) as [[t1 w1] x1] eqn:E. injection H as <- _ _.
      destruct (app_split_cons _ _ _ _ _ Ht) as [[mid [H1 H2]]|[pre' [H1 H2]]].
      * subst post.
        destruct (poll_positions _ _ _ _ _ _ _ _ Ep H1) as [P1 [P2 [P3 P4]]].
        repeat split.
        -- intros j Hx. destruct (P1 j Hx) as [o [mid' Hm]].
           exists o, (mid' ++ t1). rewrite Hm. reflexivity.
        -- intros j v Hx. rewrite (P2 j v Hx). exists t1. reflexivity.
        -- intros j o Hx Ho o' Hin. apply in_app_or in Hin.
           destruct Hin as [Hin|Hin]; [exact (P3 j o Hx Ho o' Hin)|].
           assert (Hj : j = k).
           { assert (Hk' : In x t0) by (rewrite H1; apply in_elt).
             rewrite Hx in Hk'. exact (proj1 (poll_polls _ _ _ _ _ _ _ Ep Hk')). }
           subst j. apply Hk. exact (proj1 (proj2 (scan_polls _ _ _ _ _ _ _ E Hin))).
        -- exact P4.
      * destruct (IH _ _ _ _ _ Hd' E H1) as [P1 [P2 [P3 P4]]].
        repeat split; [exact P1 | exact P2 | exact P3 |].
        intros Hx. destruct (P4 Hx) as [pre'' [j Hp]].
        exists (t0 ++ pre''), j. rewrite H2, Hp, app_assoc. reflexivity.
Qed.

Lemma state_after_inv (n : nat) : forall (ws : list (dp A)) excl,
  merge_inv ws excl ->
  merge_inv (fst (state_after n ws excl)) (snd (state_after n ws excl)) /\
  map fst (fst (state_after n ws excl)) = map fst ws.
Proof.
  induction n as [|n IH]; intros ws excl Hinv; simpl; [auto|].
  destruct (scan ws excl) as [[t1 w1] x1] eqn:E.
  destruct (IH w1 x1 (scan_inv _ _ _ _ _ E Hinv)) as [H1 H2].
  split; [exact H1|]. rewrite H2. eapply scan_ids. exact E.
Qed.

End Facts.

(** C1: for any number of workers and any finite sequences of answers
    given to them, the outer [while] loop of [__iter__] exits (within
    [fuel_bound] passes, so [iterate] is [Some]) and the values it yields
    are a permutation of the concatenation of all the workers' items: the
    union of the items, each exactly once. *)
Theorem merge_yields_each_item_once {A : Type} (streams : list (list (resp A))) :
  exists t, iterate streams = Some t /\
            Permutation (yields t) (concat (map values streams)).
Proof.
  unfold iterate, fuel_bound.
  destruct (loop_ok (S (sumlen (datapipes_of streams) + length streams))
              (datapipes_of streams) [] (datapipes_of_inv streams)) as [t [H1 H2]].
  - rewrite datapipes_of_length. simpl. lia.
  - exists t. split; [exact H1|].
    unfold datapipes_of in H2. destruct (datapipes_of_shape streams 0) as [_ [H _]].
    rewrite <- H. exact H2.
Qed.

(** C2 (as the code does it): within one pass of the [for] loop, a
    [NotAvailable] answer of datapipe [j] is followed at once by the 1 ms
    sleep and a new call on the same datapipe [j]; every sleep comes right
    after such a [NotAvailable] answer; and a value of datapipe [j] is
    yielded at once, after which [j] is not called again in that pass (at
    most one item per worker per pass). *)
Theorem scan_busy_repolls_same_worker {A : Type} (ws : list (dp A)) excl t ws2 e2 :
  NoDup (map fst ws) -> scan ws excl = (t, ws2, e2) ->
  (forall pre j post, t = pre ++ EPoll j OBusy :: post ->
     exists o post', post = ESleep :: EPoll j o :: post') /\
  (forall pre post, t = pre ++ ESleep :: post ->
     exists pre' j, pre = pre' ++ [EPoll j OBusy]) /\
  (forall pre j v post, t = pre ++ EPoll j (OValue v) :: post ->
     exists post', post = EYield v :: post' /\ forall o, ~ In (EPoll j o) post').
Proof.
  intros Hd H. repeat split.
  - intros pre j post Ht.
    exact (proj1 (scan_positions _ _ _ _ _ _ _ _ Hd H Ht) j eq_refl).
  - intros pre post Ht.
    exact (proj2 (proj2 (proj2 (scan_positions _ _ _ _ _ _ _ _ Hd H Ht))) eq_refl).
  - intros pre j v post Ht.
    destruct (scan_positions _ _ _ _ _ _ _ _ Hd H Ht) as [_ [P2 [P3 _]]].
    destruct (P2 j v eq_refl) as [post' Hp]. exists post'. split; [exact Hp|].
    intros o Hin. apply (P3 j (OValue v) eq_refl ltac:(discriminate) o).
    rewrite Hp. right. exact Hin.
Qed.

Lemma scan_busy_repolls_same_worker_witness :
  exists t ws2 e2,
    scan (datapipes_of [[RNotAvailable; RValue 1]; [RValue 2]]) [] = (t, ws2, e2) /\
    ((forall pre j post, t = pre ++ EPoll j OBusy :: post ->
        exists o post', post = ESleep :: EPoll j o :: post') /\
     (forall pre post, t = pre ++ ESleep :: post ->
        exists pre' j, pre = pre' ++ [EPoll j OBusy]) /\
     (forall pre j (v : nat) post, t = pre ++ EPoll j (OValue v) :: post ->
        exists post', post = EYield v :: post' /\ forall o, ~ In (EPoll j o) post')).
Proof.
  do 3 eexists. split; [reflexivity|].
  eapply (scan_busy_repolls_same_worker
           (datapipes_of [[RNotAvailable; RValue 1]; [RValue 2]]) []);
    [|reflexivity].
  simpl. constructor; [intros [Hc|[]]; discriminate|].
  constructor; [intros []|constructor].
Defined.

(** C2 as stated fails: with worker 0 answering [NotAvailable] once before
    its item and worker 1 ready, the first pass calls worker 0 again right
    after the sleep instead of leaving it to the next pass and moving on to
    worker 1; and the sleep happens although worker 1 was not busy. *)
Lemma busy_worker_not_left_for_next_scan :
  scan (datapipes_of [[RNotAvailable; RValue 1]; [RValue 2]]) []
  = ([EPoll 0 OBusy; ESleep; EPoll 0 (OValue 1); EYield 1;
      EPoll 1 (OValue 2); EYield 2],
     [(0, []); (1, [])], []).
Proof. reflexivity. Qed.

(** C3: once a datapipe raised [StopIteration] it is never called again in
    the rest of the run; and at the test of the outer [while] after any
    number of passes, the loop stops exactly when every worker's datapipe
    is in [exclude_datapipes]. *)
Theorem excluded_worker_never_polled_again {A : Type} (streams : list (list (resp A))) :
  (forall t pre i post o, iterate streams = Some t ->
     t = pre ++ EPoll i OStop :: post -> ~ In (EPoll i o) post) /\
  (forall n,
     (length (snd (state_after n (datapipes_of streams) [])) <?
        length (fst (state_after n (datapipes_of streams) []))) = false <->
     (forall i, i < length streams ->
        In i (snd (state_after n (datapipes_of streams) [])))).
Proof.
  split.
  - intros t pre i post o H Ht. exact (loop_stop_final _ _ _ _ _ _ _ _ H Ht).
  - intros n.
    destruct (state_after_inv n _ _ (datapipes_of_inv streams)) as [Hinv Hids].
    destruct (state_after n (datapipes_of streams) []) as [ws excl]. simpl in *.
    unfold datapipes_of in Hids. rewrite (proj1 (datapipes_of_shape streams 0)) in Hids.
    destruct Hinv as [Hd [Hn [Hi _]]].
    assert (Hlen : length ws = length streams)
      by (rewrite <- (length_map fst ws), Hids, length_seq; reflexivity).
    rewrite Nat.ltb_ge. split.
    + intros Hge i Hlt.
      apply (NoDup_length_incl (l' := map fst ws) Hn);
        [rewrite length_map; lia | exact Hi |].
      rewrite Hids. apply in_seq. lia.
    + intros Hall.
      assert (Hinc : incl (map fst ws) excl).
      { intros i Hin. rewrite Hids in Hin. apply in_seq in Hin. apply Hall. lia. }
      pose proof (NoDup_incl_length Hd Hinc) as Hl. rewrite length_map in Hl. lia.
Qed.

Lemma excluded_worker_never_polled_again_witness :
  exists t,
    iterate [[RNotAvailable; RValue 1]; [RValue 2; RValue 3]] = Some t /\
    t = [EPoll 0 OBusy; ESleep; EPoll 0 (OValue 1); EYield 1;
         EPoll 1 (OValue 2); EYield 2] ++
        EPoll 0 OStop :: [EPoll 1 (OValue 3); EYield 3; EPoll 1 OStop] /\
    forall o, ~ In (EPoll 0 o) [EPoll 1 (OValue 3); EYield 3; EPoll 1 OStop].
Proof.
  eexists. split; [reflexivity|]. split; [reflexivity|].
  intros o.
  apply (proj1 (excluded_worker_never_polled_again
                  [[RNotAvailable; RValue 1]; [RValue 2; RValue 3]])
           ([EPoll 0 OBusy; ESleep; EPoll 0 (OValue 1); EYield 1;
             EPoll 1 (OValue 2); EYield 2] ++
            EPoll 0 OStop :: [EPoll 1 (OValue 3); EYield 3; EPoll 1 OStop])
           [EPoll 0 OBusy; ESleep; EPoll 0 (OValue 1); EYield 1;
              EPoll 1 (OValue 2); EYield 2]
           0 [EPoll 1 (OValue 3); EYield 3; EPoll 1 OStop] o);
    reflexivity.
Defined.

End MergeIterFacts.

(** ** Facts about [PrototypeMultiProcessingReadingService] *)
Module PMRSFacts.
Import PMRS.

Lemma init_fold (dp : pipe) (ids : list nat) : forall st w st' w',
  fold_left (init_worker dp) ids (st, w) = (st', w') ->
  exists new,
    num_workers st' = num_workers st /\
    multiprocessing_context st' = multiprocessing_context st /\
    processes st' = processes st ++ new /\
    datapipes st' = datapipes st ++ map wrapper_of new /\
    length new = length ids /\
    next_id w' = next_id w + 3 * length ids /\
    started w' = started w ++ map pid new /\
    puts w' = puts w /\ joined w' = joined w /\
    (forall m p, nth_error new m = Some p ->
       pid p = next_id w + 3 * m /\ req_q p = pid p + 1 /\ res_q p = pid p + 2 /\
       exists i, nth_error ids m = Some i /\
                 worker_pipe p = ShardedPipe (num_workers st) i dp).
Proof.
  induction ids as [|i ids IH]; intros st w st' w' H; simpl in H.
  - injection H as <- <-. exists []. rewrite !app_nil_r. simpl.
    do 5 (split; [reflexivity|]). split; [lia|].
    do 3 (split; [reflexivity|]).
    intros m p Hm. destruct m; discriminate.
  - destruct (IH _ _ _ _ H) as [new [H1 [H2 [H3 [H4 [H5 [H6 [H7 [H8 [H9 H10]]]]]]]]]].
    simpl in *.
    exists (mkProc (next_id w) (next_id w + 1) (next_id w + 2)
              (init_datapipe_process (num_workers st) i dp) :: new).
    rewrite H1, H2, H3, H4, H7, H8, H9, <- !app_assoc. simpl.
    do 4 (split; [reflexivity|]). split; [rewrite H5; reflexivity|].
    split; [rewrite H6; lia|]. do 3 (split; [reflexivity|]).
    intros m p Hm. destruct m as [|m]; simpl in Hm.
      * injection Hm as <-. simpl. split; [lia|]. split; [reflexivity|].
        split; [reflexivity|]. exists i. split; reflexivity.
      * destruct (H10 m p Hm) as [P1 [P2 [P3 P4]]].
        split; [lia|]. split; [exact P2|]. split; [exact P3 | exact P4].
Qed.

Lemma queues_nodup (l : list proc) : forall b,
  (forall m p, nth_error l m = Some p ->
     req_q p = b + 3 * m + 1 /\ res_q p = b + 3 * m + 2) ->
  NoDup (flat_map (fun p => [req_q p; res_q p]) l) /\
  (forall x, In x (flat_map (fun p => [req_q p; res_q p]) l) -> b < x).
Proof.
  induction l as [|p l IH]; intros b H; simpl.
  - split; [constructor | intros x []].
  - destruct (H 0 p eq_refl) as [Hr Hs].
    destruct (IH (b + 3)) as [Hd Hb].
    { intros m p' Hm. destruct (H (S m) p' Hm) as [A1 A2]. split; lia. }
    split.
    + constructor.
      * intros [Hc|Hc]; [lia|]. apply Hb in Hc. lia.
      * constructor; [|exact Hd]. intros Hc. apply Hb in Hc. lia.
    + intros x [Hx|[Hx|Hx]]; [lia|lia|]. apply Hb in Hx. lia.
Qed.

Lemma clean_all_spec (arrival : nat -> option nat) (ps : list proc) : forall w,
  match clean_all arrival ps w with
  | CleanOk _ => forall p, In p ps -> exists t, arrival (res_q p) = Some t
  | CleanBlocked q _ => exists p, In p ps /\ pid p = q /\ arrival (res_q p) = None
  | CleanRaised _ => False
  end.
Proof.
  induction ps as [|p ps IH]; intros w; simpl.
  - intros p [].
  - destruct (arrival (res_q p)) as [t|] eqn:Ea; simpl.
    + specialize (IH (mkWorld (next_id w) (started w)
                        (puts w ++ [(req_q p, TerminateRequest)])
                        (joined w ++ [pid p]))).
      destruct (clean_all arrival ps _).
      * intros p' [<-|Hp']; [eauto | exact (IH p' Hp')].
      * destruct IH as [p' [H1 H2]]. exists p'. auto.
      * exact IH.
    + exists p. auto.
Qed.

Lemma clean_all_ok (arrival : nat -> option nat) (ps : list proc) : forall w,
  (forall p, In p ps -> exists t, arrival (res_q p) = Some t) ->
  exists w', clean_all arrival ps w = CleanOk w'.
Proof.
  induction ps as [|p ps IH]; intros w H; simpl; [eauto|].
  destruct (H p (or_introl eq_refl)) as [t Ht]. rewrite Ht. simpl.
  apply IH. intros p' Hp'. apply H. right. exact Hp'.
Qed.

Lemma finalize_state (arrival : nat -> option nat) st w st' w' :
  finalize arrival st w = FinDone st' w' -> st' = set_processes st [].
Proof.
  unfold finalize. destruct (clean_all arrival (processes st) w); intros H;
    inversion H; reflexivity.
Qed.

(** C4 (as the code does it): [finalize] waits for each worker's reply
    with [res_queue.get()] and no timeout.  It never raises: it completes
    exactly when every worker's reply arrives, whenever that is, and when a
    reply never comes it stays blocked on that worker for ever. *)
Theorem finalize_waits_without_timeout (arrival : nat -> option nat) st w :
  (forall w', finalize arrival st w <> FinRaised w') /\
  ((exists st' w', finalize arrival st w = FinDone st' w') <->
   (forall p, In p (processes st) -> exists t, arrival (res_q p) = Some t)) /\
  (forall q w', finalize arrival st w = FinBlocked q w' ->
     exists p, In p (processes st) /\ pid p = q /\ arrival (res_q p) = None).
Proof.
  pose proof (clean_all_spec arrival (processes st) w) as Hs.
  unfold finalize. split; [|split].
  - intros w'. destruct (clean_all arrival (processes st) w); [discriminate|discriminate|].
    contradiction.
  - split.
    + intros [st' [w' H]].
      destruct (clean_all arrival (processes st) w); [exact Hs|discriminate|discriminate].
    + intros Hall. destruct (clean_all_ok arrival (processes st) w Hall) as [w' Hw].
      rewrite Hw. eauto.
  - intros q w' H.
    destruct (clean_all arrival (processes st) w); [discriminate| |discriminate].
    injection H as -> _. exact Hs.
Qed.

Lemma finalize_waits_without_timeout_witness :
  (forall w', finalize (fun _ => Some 120)
     (mkService 1 None [mkProc 0 1 2 (ShardedPipe 1 0 (Pipe "src"))] [mkQW 1 2])
     (mkWorld 3 [0] [] []) <> FinRaised w') /\
  exists st' w', finalize (fun _ => Some 120)
     (mkService 1 None [mkProc 0 1 2 (ShardedPipe 1 0 (Pipe "src"))] [mkQW 1 2])
     (mkWorld 3 [0] [] []) = FinDone st' w'.
Proof.
  destruct (finalize_waits_without_timeout (fun _ => Some 120)
     (mkService 1 None [mkProc 0 1 2 (ShardedPipe 1 0 (Pipe "src"))] [mkQW 1 2])
     (mkWorld 3 [0] [] [])) as [H1 [H2 _]].
  split; [exact H1|]. apply H2.
  intros p [<-|[]]. exists 120. reflexivity.
Defined.

(** C4 as stated fails: a worker whose [TerminateAck] never arrives leaves
    [finalize] blocked for ever on [res_queue.get()], with no error; and a
    reply arriving at minute 120 (past the 30 minute default timeout of the
    distributed layer) is taken as if on time. *)
Lemma finalize_blocks_forever_without_ack :
  finalize (fun _ => None)
    (mkService 1 None [mkProc 0 1 2 (ShardedPipe 1 0 (Pipe "src"))] [mkQW 1 2])
    (mkWorld 3 [0] [] [])
  = FinBlocked 0 (mkWorld 3 [0] [(1, TerminateRequest)] []) /\
  finalize (fun _ => Some 120)
    (mkService 1 None [mkProc 0 1 2 (ShardedPipe 1 0 (Pipe "src"))] [mkQW 1 2])
    (mkWorld 3 [0] [] [])
  = FinDone (mkService 1 None [] [mkQW 1 2])
            (mkWorld 3 [0] [(1, TerminateRequest)] [0]).
Proof. split; reflexivity. Qed.

(** C5: after a [finalize] that completed, a second [finalize] (whatever
    the workers do) is a no-op: it completes, changes no field, and puts no
    message on any queue (the world is unchanged). *)
Theorem finalize_idempotent (arrival arrival' : nat -> option nat) st w st' w' :
  finalize arrival st w = FinDone st' w' ->
  finalize arrival' st' w' = FinDone st' w'.
Proof.
  intros H. pose proof (finalize_state _ _ _ _ _ H) as ->.
  unfold finalize. simpl. reflexivity.
Qed.

Lemma finalize_idempotent_witness :
  finalize (fun _ => Some 5)
    (mkService 2 None [mkProc 0 1 2 (ShardedPipe 2 0 (Pipe "src"));
                       mkProc 3 4 5 (ShardedPipe 2 1 (Pipe "src"))]
       [mkQW 1 2; mkQW 4 5])
    (mkWorld 6 [0; 3] [] [])
  = FinDone (mkService 2 None [] [mkQW 1 2; mkQW 4 5])
            (mkWorld 6 [0; 3] [(1, TerminateRequest); (4, TerminateRequest)] [0; 3]) /\
  finalize (fun _ => None) (mkService 2 None [] [mkQW 1 2; mkQW 4 5])
            (mkWorld 6 [0; 3] [(1, TerminateRequest); (4, TerminateRequest)] [0; 3])
  = FinDone (mkService 2 None [] [mkQW 1 2; mkQW 4 5])
            (mkWorld 6 [0; 3] [(1, TerminateRequest); (4, TerminateRequest)] [0; 3]).
Proof.
  split; [reflexivity|].
  apply (finalize_idempotent (fun _ => Some 5) (fun _ => None)
    (mkService 2 None [mkProc 0 1 2 (ShardedPipe 2 0 (Pipe "src"));
                       mkProc 3 4 5 (ShardedPipe 2 1 (Pipe "src"))]
       [mkQW 1 2; mkQW 4 5])
    (mkWorld 6 [0; 3] [] [])).
  reflexivity.
Defined.

Lemma initialize_appends st w dp :
  0 < num_workers st ->
  exists st' w' new,
    initialize st w dp = (MergedDatapipes, st', w') /\
    processes st' = processes st ++ new /\
    datapipes st' = datapipes st ++ map wrapper_of new /\
    length new = num_workers st.
Proof.
  intros Hk. unfold initialize.
  destruct (num_workers st =? 0) eqn:E; [apply Nat.eqb_eq in E; lia|].
  destruct (fold_left (init_worker dp) (seq 0 (num_workers st)) (st, w))
    as [st' w'] eqn:Ef.
  destruct (init_fold _ _ _ _ _ _ Ef) as [new [_ [_ [H3 [H4 [H5 _]]]]]].
  exists st', w', new. rewrite length_seq in H5. auto.
Qed.

(** C8: for [K = num_workers > 0], [initialize] creates exactly [K] new
    processes, all started; the [i]-th runs the pipeline sharded with
    instance [i] of [K]; the request and response queues of the new
    workers are all distinct and freshly allocated, so no two workers
    share a queue; and one [QueueWrapper] on each worker's own queues is
    added to [self.datapipes]. *)
Theorem initialize_spawns_one_worker_per_shard st w dp :
  0 < num_workers st ->
  exists st' w' new,
    initialize st w dp = (MergedDatapipes, st', w') /\
    processes st' = processes st ++ new /\
    datapipes st' = datapipes st ++ map wrapper_of new /\
    length new = num_workers st /\
    (forall i, i < num_workers st ->
       exists p, nth_error new i = Some p /\
         worker_pipe p = ShardedPipe (num_workers st) i dp /\
         In (pid p) (started w')) /\
    NoDup (flat_map (fun p => [req_q p; res_q p]) new) /\
    (forall p, In p new -> next_id w < req_q p /\ next_id w < res_q p).
Proof.
  intros Hk. unfold initialize.
  destruct (num_workers st =? 0) eqn:E; [apply Nat.eqb_eq in E; lia|].
  destruct (fold_left (init_worker dp) (seq 0 (num_workers st)) (st, w))
    as [st' w'] eqn:Ef.
  destruct (init_fold _ _ _ _ _ _ Ef)
    as [new [_ [_ [H3 [H4 [H5 [_ [H7 [_ [_ H10]]]]]]]]]].
  rewrite length_seq in H5.
  exists st', w', new. split; [reflexivity|].
  split; [exact H3|]. split; [exact H4|]. split; [exact H5|]. split; [|split].
  - intros i Hi.
    destruct (nth_error new i) as [p|] eqn:Hp;
      [|apply nth_error_None in Hp; lia].
    destruct (H10 i p Hp) as [_ [_ [_ [i' [Hi' Hpipe]]]]].
    rewrite nth_error_seq in Hi'. destruct (i <? num_workers st) eqn:Hlt;
      [|apply Nat.ltb_ge in Hlt; lia].
    simpl in Hi'. injection Hi' as <-.
    exists p. split; [reflexivity|]. split; [exact Hpipe|].
    rewrite H7. apply in_or_app. right. apply in_map. eapply nth_error_In. exact Hp.
  - apply (proj1 (queues_nodup new (next_id w) ltac:(
      intros m p Hm; destruct (H10 m p Hm) as [A1 [A2 [A3 _]]]; split; lia))).
  - intros p Hin. apply In_nth_error in Hin. destruct Hin as [m Hm].
    destruct (H10 m p Hm) as [A1 [A2 [A3 _]]]. split; lia.
Qed.

Lemma initialize_spawns_one_worker_per_shard_witness :
  exists st' w' new,
    initialize (mkService 2 None [] []) (mkWorld 0 [] [] []) (Pipe "src")
      = (MergedDatapipes, st', w') /\
    processes st' = [] ++ new /\
    datapipes st' = [] ++ map wrapper_of new /\
    length new = 2 /\
    (forall i, i < 2 ->
       exists p, nth_error new i = Some p /\
         worker_pipe p = ShardedPipe 2 i (Pipe "src") /\ In (pid p) (started w')) /\
    NoDup (flat_map (fun p => [req_q p; res_q p]) new) /\
    (forall p, In p new -> 0 < req_q p /\ 0 < res_q p).
Proof.
  apply (initialize_spawns_one_worker_per_shard
           (mkService 2 None [] []) (mkWorld 0 [] [] []) (Pipe "src")).
  simpl. lia.
Defined.

(** C9: with [num_workers = 0], [initialize] returns its input datapipe
    and changes neither the service nor the world: no process is spawned
    and no merge layer is built. *)
Theorem initialize_no_workers_passthrough st w dp :
  num_workers st = 0 -> initialize st w dp = (dp, st, w).
Proof.
  intros H. unfold initialize. rewrite H. reflexivity.
Qed.

Lemma initialize_no_workers_passthrough_witness :
  initialize (mkService 0 None [] []) (mkWorld 7 [] [] []) (Pipe "src")
  = (Pipe "src", mkService 0 None [] [], mkWorld 7 [] [] []).
Proof.
  apply initialize_no_workers_passthrough. reflexivity.
Defined.

(** C10: a completed [finalize] empties [self.processes] and changes no
    other field: [self.datapipes] still holds the wrappers of the
    terminated workers.  A later [initialize] with [K > 0] workers then
    appends [K] new processes to the empty list and [K] new wrappers after
    the old ones. *)
Theorem finalize_keeps_datapipes arrival st w st' w' :
  finalize arrival st w = FinDone st' w' ->
  processes st' = [] /\ datapipes st' = datapipes st /\
  num_workers st' = num_workers st /\
  multiprocessing_context st' = multiprocessing_context st /\
  (0 < num_workers st -> forall dp,
     exists st'' w'' new,
       initialize st' w' dp = (MergedDatapipes, st'', w'') /\
       processes st'' = processes st' ++ new /\
       datapipes st'' = datapipes st ++ map wrapper_of new /\
       length new = num_workers st).
Proof.
  intros H. pose proof (finalize_state _ _ _ _ _ H) as ->. simpl.
  split; [reflexivity|]. split; [reflexivity|]. split; [reflexivity|].
  split; [reflexivity|].
  intros Hk dp. apply (initialize_appends (set_processes st []) w' dp). exact Hk.
Qed.

Lemma finalize_keeps_datapipes_witness :
  exists st'' w'' new,
    initialize (mkService 1 None [] [mkQW 1 2])
      (mkWorld 3 [0] [(1, TerminateRequest)] [0]) (Pipe "src")
      = (MergedDatapipes, st'', w'') /\
    processes st'' = [] ++ new /\
    datapipes st'' = [mkQW 1 2] ++ map wrapper_of new /\
    length new = 1.
Proof.
  apply (proj2 (proj2 (proj2 (proj2 (finalize_keeps_datapipes (fun _ => Some 1)
    (mkService 1 None [mkProc 0 1 2 (ShardedPipe 1 0 (Pipe "src"))] [mkQW 1 2])
    (mkWorld 3 [0] [] [])
    (mkService 1 None [] [mkQW 1 2])
    (mkWorld 3 [0] [(1, TerminateRequest)] [0]) eq_refl)))));
    simpl; lia.
Defined.

End PMRSFacts.

(** ** Facts about [DistributedReadingService] *)
Module DistFacts.
Import Dist.

Lemma apply_sharding_tail (dp : dpipe) n i :
  is_fullsync (apply_sharding dp n i) = is_fullsync dp /\
  tail_fullsyncs (apply_sharding dp n i) = tail_fullsyncs dp.
Proof.
  induction dp as [m|o src IH|m src IH|t src IH]; simpl; auto.
  destruct IH as [_ IH]. rewrite IH. auto.
Qed.

(** C6: on an available and initialized runtime, [initialize] shards the
    graph and, unless its tail is already a [FullSync], puts exactly one
    [FullSync] with the configured timeout at the tail; a graph that already
    ends in [FullSync] gets none more.  So the number of [FullSync] stages at
    the tail becomes [max 1] of what it was. *)
Theorem initialize_appends_fullsync_once st rt dp :
  is_available rt = true -> is_initialized rt = true ->
  exists st',
    initialize st rt dp =
      Ok (if is_fullsync dp
          then apply_sharding dp (get_world_size rt) (get_rank rt)
          else FullSync (timeout st) (apply_sharding dp (get_world_size rt) (get_rank rt)),
          st') /\
    tail_fullsyncs (if is_fullsync dp
          then apply_sharding dp (get_world_size rt) (get_rank rt)
          else FullSync (timeout st) (apply_sharding dp (get_world_size rt) (get_rank rt)))
      = Nat.max 1 (tail_fullsyncs dp).
Proof.
  intros Ha Hi. unfold initialize. rewrite Ha, Hi. simpl.
  destruct (apply_sharding_tail dp (get_world_size rt) (get_rank rt)) as [H1 H2].
  rewrite H1.
  destruct dp as [m|o src|m src|t src]; simpl in *; eexists; split; try reflexivity;
    rewrite ?H2; simpl; lia.
Qed.

Lemma initialize_appends_fullsync_once_witness :
  exists st',
    initialize (mkDService 1 0 None 1800 None) (mkRuntime true true 2 1)
      (Stage "map" (ShardingFilter None (Source "src")))
    = Ok (FullSync 1800 (Stage "map" (ShardingFilter (Some (2, 1)) (Source "src"))), st') /\
    tail_fullsyncs (FullSync 1800 (Stage "map" (ShardingFilter (Some (2, 1)) (Source "src"))))
      = 1.
Proof.
  destruct (initialize_appends_fullsync_once (mkDService 1 0 None 1800 None)
              (mkRuntime true true 2 1)
              (Stage "map" (ShardingFilter None (Source "src"))) eq_refl eq_refl)
    as [st' [H1 H2]].
  exists st'. split; [exact H1 | exact H2].
Defined.

(** C7: the constructor raises [RuntimeError] exactly when
    [torch.distributed] is not available, and [initialize] raises
    [RuntimeError] exactly when it is not available or not initialized;
    nothing is retried or recovered: the error is the result. *)
Theorem dist_requires_runtime :
  (forall rt t, (exists m, make rt t = Raise (RuntimeError m)) <->
                is_available rt = false) /\
  (forall st rt dp, (exists m, initialize st rt dp = Raise (RuntimeError m)) <->
                    is_available rt && is_initialized rt = false).
Proof.
  split.
  - intros rt t. unfold make. destruct (is_available rt); simpl; split.
    + intros [m H]. discriminate.
    + discriminate.
    + intros _. reflexivity.
    + intros _. eexists. reflexivity.
  - intros st rt dp. unfold initialize.
    destruct (is_available rt && is_initialized rt); simpl; split.
    + intros [m H]. discriminate.
    + discriminate.
    + intros _. reflexivity.
    + intros _. eexists. reflexivity.
Qed.

Lemma dist_requires_runtime_witness :
  (exists m, make (mkRuntime false false 1 0) 1800 = Raise (RuntimeError m)) /\
  (exists m, initialize (mkDService 1 0 None 1800 None) (mkRuntime true false 1 0)
               (Source "src") = Raise (RuntimeError m)).
Proof.
  split.
  - apply (proj2 (proj1 dist_requires_runtime (mkRuntime false false 1 0) 1800)).
    reflexivity.
  - apply (proj2 (proj2 dist_requires_runtime (mkDService 1 0 None 1800 None)
                    (mkRuntime true false 1 0) (Source "src"))).
    reflexivity.
Defined.

End DistFacts.

(** ** Per-worker order and the first pass of the merge iterator *)
Module MergeTraceFacts.
Import MergeIter MergeTrace MergeIterFacts.

Section F.

Context {A : Type}.

Lemma value_polls_app (i : nat) (a b : list (event A)) :
  value_polls i (a ++ b) = value_polls i a ++ value_polls i b.
Proof.
  induction a as [|e a IH]; [reflexivity|].
  destruct e as [j [v| |]| |v]; simpl; rewrite ?IH; try reflexivity.
  destruct (i =? j); reflexivity.
Qed.

Lemma value_polls_absent (i : nat) (t : list (event A)) :
  (forall o, ~ In (EPoll i o) t) -> value_polls i t = [].
Proof.
  induction t as [|e t IH]; intros H; [reflexivity|].
  assert (Ht : forall o, ~ In (EPoll i o) t) by (intros o Ho; apply (H o); right; exact Ho).
  destruct e as [j [v| |]| |v]; simpl; try apply (IH Ht).
  destruct (i =? j) eqn:E; [|apply (IH Ht)].
  apply Nat.eqb_eq in E. subst j. exfalso. apply (H (OValue v)). left. reflexivity.
Qed.

Lemma poll_value_polls (i : nat) (s : list (resp A)) tp r s' :
  poll i s = (tp, r, s') -> value_polls i tp ++ values s' = values s.
Proof.
  revert tp r s'. induction s as [|[v|] s IH]; intros tp r s' H; simpl in H.
  - injection H as <- _ <-. reflexivity.
  - injection H as <- _ <-. simpl. rewrite Nat.eqb_refl. reflexivity.
  - destruct (poll i s) as [[t0 r0] s0] eqn:E. injection H as <- _ <-.
    simpl. apply (IH _ _ _ eq_refl).
Qed.

Lemma scan_value_polls (ws : list (dp A)) excl t ws2 e2 :
  NoDup (map fst ws) -> scan ws excl = (t, ws2, e2) ->
  forall i s s2, In (i, s) ws -> In (i, s2) ws2 ->
  value_polls i t ++ values s2 = values s.
Proof.
  revert excl t ws2 e2. induction ws as [|[k s0] ws IH];
    intros excl t ws2 e2 Hd H i s s2 Hin Hin2; [destruct Hin|].
  simpl in Hd. apply NoDup_cons_iff in Hd as [Hk Hd]. simpl in H.
  assert (Hid : forall x, In (i, x) ws -> In i (map fst ws))
    by (intros x Hx; apply in_map_iff; exists (i, x); auto).
  destruct (mem k excl).
  - destruct (scan ws excl) as [[t1 w1] f1] eqn:E. injection H as <- <- <-.
    pose proof (scan_ids _ _ _ _ _ E) as Hids.
    destruct Hin as [Heq|Hin]; destruct Hin2 as [Heq2|Hin2].
    + injection Heq as Hki Hs. injection Heq2 as _ Hs2. subst.
      rewrite value_polls_absent; [reflexivity|].
      intros o Ho. destruct (scan_polls _ _ _ _ _ _ _ E Ho) as [_ [Hm _]].
      exact (Hk Hm).
    + injection Heq as Hki _. subst k. exfalso. apply Hk. rewrite <- Hids.
      apply in_map_iff. exists (i, s2). auto.
    + injection Heq2 as Hki _. subst k. exfalso. exact (Hk (Hid _ Hin)).
    + exact (IH _ _ _ _ Hd E i s s2 Hin Hin2).
  - destruct (poll k s0) as [[tp r] s'] eqn:Ep.
    destruct (scan ws (match r with None => excl ++ [k] | Some _ => excl end))
      as [[t2 w2] f2] eqn:E.
    injection H as <- <- <-. rewrite value_polls_app.
    pose proof (scan_ids _ _ _ _ _ E) as Hids.
    destruct Hin as [Heq|Hin]; destruct Hin2 as [Heq2|Hin2].
    + injection Heq as Hki Hs. injection Heq2 as _ Hs2. subst.
      rewrite (value_polls_absent _ t2); [rewrite app_nil_r; exact (poll_value_polls _ _ _ _ _ Ep)|].
      intros o Ho. destruct (scan_polls _ _ _ _ _ _ _ E Ho) as [_ [Hm _]].
      exact (Hk Hm).
    + injection Heq as Hki _. subst k. exfalso. apply Hk. rewrite <- Hids.
      apply in_map_iff. exists (i, s2). auto.
    + injection Heq2 as Hki _. subst k. exfalso. exact (Hk (Hid _ Hin)).
    + rewrite (value_polls_absent _ tp).
      * exact (IH _ _ _ _ Hd E i s s2 Hin Hin2).
      * intros o Ho. destruct (poll_polls _ _ _ _ _ _ _ Ep Ho) as [Hik _]. subst k.
        exact (Hk (Hid _ Hin)).
Qed.

Lemma loop_value_polls (fuel : nat) : forall (ws : list (dp A)) excl t,
  merge_inv ws excl -> loop fuel ws excl = Some t ->
  forall i s, In (i, s) ws -> value_polls i t = values s.
Proof.
  induction fuel as [|f IH]; intros ws excl t Hinv H i s Hin; simpl in H;
    [discriminate|].
  destruct (length excl <? length ws) eqn:Hlt.
  - destruct (scan ws excl) as [[t1 w1] e1] eqn:E.
    destruct (loop f w1 e1) as [t'|] eqn:El; [|discriminate].
    injection H as <-.
    pose proof (scan_ids _ _ _ _ _ E) as Hids.
    assert (Hi2 : In i (map fst w1))
      by (rewrite Hids; apply in_map_iff; exists (i, s); auto).
    apply in_map_iff in Hi2 as [[i' s2] [Heq Hin2]]. simpl in Heq. subst i'.
    rewrite value_polls_app, (IH _ _ _ (scan_inv _ _ _ _ _ E Hinv) El i s2 Hin2).
    exact (scan_value_polls _ _ _ _ _ (proj1 Hinv) E i s s2 Hin Hin2).
  - injection H as <-. simpl.
    apply Nat.ltb_ge in Hlt.
    assert (Hall : allvals ws = []) by (apply (all_excluded_empty _ _ Hinv); lia).
    destruct (values s) as [|v l] eqn:Ev; [reflexivity|].
    exfalso. assert (Hv : In v (allvals ws)).
    { unfold allvals. apply in_flat_map. exists (i, s). split; [exact Hin|].
      simpl. rewrite Ev. left. reflexivity. }
    rewrite Hall in Hv. destruct Hv.
Qed.

Lemma combine_seq_nth (l : list (list (resp A))) : forall k i s,
  nth_error l i = Some s -> In (k + i, s) (combine (seq k (length l)) l).
Proof.
  induction l as [|x l IH]; intros k i s H; [destruct i; discriminate|].
  destruct i as [|i]; simpl in H |- *.
  - injection H as <-. left. rewrite Nat.add_0_r. reflexivity.
  - right. replace (k + S i) with (S k + i) by lia. apply IH. exact H.
Qed.

Lemma poll_first_item (i : nat) (s : list (resp A)) tp r s' :
  poll i s = (tp, r, s') -> yields tp = firstn 1 (values s).
Proof.
  revert tp r s'. induction s as [|[v|] s IH]; intros tp r s' H; simpl in H.
  - injection H as <- _ _. reflexivity.
  - injection H as <- _ _. reflexivity.
  - destruct (poll i s) as [[t0 r0] s0] eqn:E. injection H as <- _ _.
    simpl. apply (IH _ _ _ eq_refl).
Qed.

Lemma scan_first_items (ws : list (dp A)) : forall excl,
  NoDup (map fst ws) -> (forall j, In j (map fst ws) -> ~ In j excl) ->
  yields (fst (fst (scan ws excl))) = flat_map (fun w => firstn 1 (values (snd w))) ws.
Proof.
  induction ws as [|[k s] ws IH]; intros excl Hd Hx; [reflexivity|].
  simpl in Hd. apply NoDup_cons_iff in Hd as [Hk Hd]. simpl.
  assert (Hm : mem k excl = false)
    by (apply mem_false; apply Hx; left; reflexivity).
  rewrite Hm.
  destruct (poll k s) as [[tp r] s'] eqn:Ep.
  assert (IH' := IH (match r with None => excl ++ [k] | Some _ => excl end) Hd).
  destruct (scan ws (match r with None => excl ++ [k] | Some _ => excl end))
    as [[t2 w2] e2] eqn:E.
  simpl in IH' |- *. rewrite yields_app, (poll_first_item _ _ _ _ _ Ep), IH'; [reflexivity|].
  intros j Hj Hin. destruct r.
  - exact (Hx j (or_intror Hj) Hin).
  - apply in_app_or in Hin as [Hin|[<-|[]]].
    + exact (Hx j (or_intror Hj) Hin).
    + exact (Hk Hj).
Qed.

Lemma flat_map_combine_seq {B : Type} (f : list (resp A) -> list B)
  (l : list (list (resp A))) : forall k,
  flat_map (fun w => f (snd w)) (combine (seq k (length l)) l) = flat_map f l.
Proof.
  induction l as [|x l IH]; intros k; simpl; [reflexivity|]. rewrite IH. reflexivity.
Qed.

End F.

(** X1: in a complete run of [_IterateQueueDataPipes.__iter__], the values
    obtained from worker [i], in the order they were obtained, are exactly
    the values that worker produces, in its own order: the merge never
    reorders, drops or repeats the items of one worker. *)
Theorem merge_preserves_worker_order {A : Type} (streams : list (list (resp A))) t :
  iterate streams = Some t ->
  forall i s, nth_error streams i = Some s -> value_polls i t = values s.
Proof.
  intros H i s Hs. unfold iterate in H.
  apply (loop_value_polls _ _ _ _ (datapipes_of_inv streams) H).
  unfold datapipes_of. exact (combine_seq_nth streams 0 i s Hs).
Qed.

Lemma merge_preserves_worker_order_witness :
  iterate [[RNotAvailable; RValue 1; RValue 2]; [RValue 3]] =
    Some [EPoll 0 OBusy; ESleep; EPoll 0 (OValue 1); EYield 1;
          EPoll 1 (OValue 3); EYield 3; EPoll 0 (OValue 2); EYield 2;
          EPoll 1 OStop; EPoll 0 OStop] /\
  value_polls 0 [EPoll 0 OBusy; ESleep; EPoll 0 (OValue 1); EYield 1;
                 EPoll 1 (OValue 3); EYield 3; EPoll 0 (OValue 2); EYield 2;
                 EPoll 1 OStop; EPoll 0 OStop] = [1; 2].
Proof.
  split; [reflexivity|].
  exact (merge_preserves_worker_order
           [[RNotAvailable; RValue 1; RValue 2]; [RValue 3]]
           [EPoll 0 OBusy; ESleep; EPoll 0 (OValue 1); EYield 1;
            EPoll 1 (OValue 3); EYield 3; EPoll 0 (OValue 2); EYield 2;
            EPoll 1 OStop; EPoll 0 OStop] eq_refl
           0 [RNotAvailable; RValue 1; RValue 2] eq_refl).
Defined.

(** X2: the first pass of the [for dp in self.datapipes] loop yields
    exactly the first item of every worker that has one, in the order of
    the workers (a worker answering [NotAvailable] is waited for within the
    pass; a worker with no items yields nothing). *)
Theorem first_pass_takes_first_item_of_each_worker {A : Type}
  (streams : list (list (resp A))) :
  yields (fst (fst (scan (datapipes_of streams) []))) =
    flat_map (fun s => firstn 1 (values s)) streams.
Proof.
  destruct (datapipes_of_inv streams) as [Hd _].
  rewrite scan_first_items; [|exact Hd|intros j _ []].
  unfold datapipes_of.
  exact (flat_map_combine_seq (fun s => firstn 1 (values s)) streams 0).
Qed.

End MergeTraceFacts.

(** ** More facts about [PrototypeMultiProcessingReadingService] *)
Module PMRSMoreFacts.
Import PMRS PMRSFacts.

Definition terminate_of (p : proc) : nat * msg := (req_q p, TerminateRequest).

Lemma clean_all_done (arrival : nat -> option nat) (ps : list proc) : forall w w',
  clean_all arrival ps w = CleanOk w' ->
  puts w' = puts w ++ map terminate_of ps /\ joined w' = joined w ++ map pid ps /\
  next_id w' = next_id w /\ started w' = started w.
Proof.
  induction ps as [|p ps IH]; intros w w' H; simpl in H.
  - injection H as <-. rewrite !app_nil_r. auto.
  - destruct (arrival (res_q p)) as [t|]; simpl in H; [|discriminate].
    destruct (IH _ _ H) as [H1 [H2 [H3 H4]]]. simpl in *.
    rewrite H1, H2, <- !app_assoc. auto.
Qed.

Lemma clean_all_blocked (arrival : nat -> option nat) (ps : list proc) : forall w q w',
  clean_all arrival ps w = CleanBlocked q w' ->
  exists pre p post,
    ps = pre ++ p :: post /\ pid p = q /\ arrival (res_q p) = None /\
    (forall p', In p' pre -> exists t, arrival (res_q p') = Some t) /\
    puts w' = puts w ++ map terminate_of (pre ++ [p]) /\
    joined w' = joined w ++ map pid pre.
Proof.
  induction ps as [|p ps IH]; intros w q w' H; simpl in H; [discriminate|].
  destruct (arrival (res_q p)) as [t|] eqn:Ea; simpl in H.
  - destruct (IH _ _ _ H) as [pre [p0 [post [H1 [H2 [H3 [H4 [H5 H6]]]]]]]].
    simpl in H5, H6.
    exists (p :: pre), p0, post. rewrite H1. split; [reflexivity|].
    split; [exact H2|]. split; [exact H3|]. split.
    + intros p' [<-|Hp']; [eauto | exact (H4 p' Hp')].
    + rewrite H5, H6, <- !app_assoc. split; reflexivity.
  - injection H as <- <-. exists [], p, ps. simpl.
    rewrite !app_nil_r. repeat split; auto. intros p' [].
Qed.

Lemma finalize_done_world (arrival : nat -> option nat) st w st' w' :
  finalize arrival st w = FinDone st' w' ->
  puts w' = puts w ++ map terminate_of (processes st) /\
  joined w' = joined w ++ map pid (processes st) /\
  next_id w' = next_id w /\ started w' = started w.
Proof.
  unfold finalize. destruct (clean_all arrival (processes st) w) eqn:E;
    intros H; inversion H; subst. exact (clean_all_done _ _ _ _ E).
Qed.

(** X3: a [finalize] that completes puts exactly one [TerminateRequest] on
    the request queue of every process, in the order of [self.processes],
    joins every process in that order, and creates or starts nothing. *)
Theorem finalize_terminates_and_joins_each_process (arrival : nat -> option nat)
  st w st' w' :
  finalize arrival st w = FinDone st' w' ->
  puts w' = puts w ++ map (fun p => (req_q p, TerminateRequest)) (processes st) /\
  joined w' = joined w ++ map pid (processes st) /\
  next_id w' = next_id w /\ started w' = started w.
Proof.
  exact (finalize_done_world arrival st w st' w').
Qed.

Lemma finalize_terminates_and_joins_each_process_witness :
  finalize (fun _ => Some 1)
    (mkService 2 None [mkProc 0 1 2 (ShardedPipe 2 0 (Pipe "src"));
                       mkProc 3 4 5 (ShardedPipe 2 1 (Pipe "src"))]
       [mkQW 1 2; mkQW 4 5])
    (mkWorld 6 [0; 3] [] [])
  = FinDone (mkService 2 None [] [mkQW 1 2; mkQW 4 5])
      (mkWorld 6 [0; 3] [(1, TerminateRequest); (4, TerminateRequest)] [0; 3]) /\
  [(1, TerminateRequest); (4, TerminateRequest)] =
    [] ++ map (fun p => (req_q p, TerminateRequest))
            [mkProc 0 1 2 (ShardedPipe 2 0 (Pipe "src"));
             mkProc 3 4 5 (ShardedPipe 2 1 (Pipe "src"))].
Proof.
  split; [reflexivity|].
  exact (proj1 (finalize_terminates_and_joins_each_process (fun _ => Some 1)
    (mkService 2 None [mkProc 0 1 2 (ShardedPipe 2 0 (Pipe "src"));
                       mkProc 3 4 5 (ShardedPipe 2 1 (Pipe "src"))]
       [mkQW 1 2; mkQW 4 5])
    (mkWorld 6 [0; 3] [] [])
    (mkService 2 None [] [mkQW 1 2; mkQW 4 5])
    (mkWorld 6 [0; 3] [(1, TerminateRequest); (4, TerminateRequest)] [0; 3])
    eq_refl)).
Defined.

(** X4: when [finalize] blocks, it blocks on the first process (in the
    order of [self.processes]) whose reply never comes: every earlier
    process got its [TerminateRequest], replied and was joined; the blocking
    process got its [TerminateRequest] and is not joined; the later
    processes were sent nothing. *)
Theorem finalize_blocks_on_first_silent_process (arrival : nat -> option nat)
  st w q w' :
  finalize arrival st w = FinBlocked q w' ->
  exists pre p post,
    processes st = pre ++ p :: post /\ pid p = q /\ arrival (res_q p) = None /\
    (forall p', In p' pre -> exists t, arrival (res_q p') = Some t) /\
    puts w' = puts w ++ map (fun p => (req_q p, TerminateRequest)) (pre ++ [p]) /\
    joined w' = joined w ++ map pid pre.
Proof.
  unfold finalize. destruct (clean_all arrival (processes st) w) eqn:E;
    intros H; inversion H; subst. exact (clean_all_blocked _ _ _ _ _ E).
Qed.

Lemma finalize_blocks_on_first_silent_process_witness :
  finalize (fun q => if q =? 5 then None else Some 1)
    (mkService 3 None [mkProc 0 1 2 (ShardedPipe 3 0 (Pipe "src"));
                       mkProc 3 4 5 (ShardedPipe 3 1 (Pipe "src"));
                       mkProc 6 7 8 (ShardedPipe 3 2 (Pipe "src"))]
       [mkQW 1 2; mkQW 4 5; mkQW 7 8])
    (mkWorld 9 [0; 3; 6] [] [])
  = FinBlocked 3 (mkWorld 9 [0; 3; 6] [(1, TerminateRequest); (4, TerminateRequest)] [0]) /\
  exists pre p post,
    [mkProc 0 1 2 (ShardedPipe 3 0 (Pipe "src"));
     mkProc 3 4 5 (ShardedPipe 3 1 (Pipe "src"));
     mkProc 6 7 8 (ShardedPipe 3 2 (Pipe "src"))] = pre ++ p :: post /\ pid p = 3 /\
    (if res_q p =? 5 then None else Some 1) = None /\
    (forall p', In p' pre -> exists t, (if res_q p' =? 5 then None else Some 1) = Some t) /\
    [(1, TerminateRequest); (4, TerminateRequest)] =
      [] ++ map (fun p => (req_q p, TerminateRequest)) (pre ++ [p]) /\
    [0] = [] ++ map pid pre.
Proof.
  split; [reflexivity|].
  exact (finalize_blocks_on_first_silent_process
    (fun q => if q =? 5 then None else Some 1)
    (mkService 3 None [mkProc 0 1 2 (ShardedPipe 3 0 (Pipe "src"));
                       mkProc 3 4 5 (ShardedPipe 3 1 (Pipe "src"));
                       mkProc 6 7 8 (ShardedPipe 3 2 (Pipe "src"))]
       [mkQW 1 2; mkQW 4 5; mkQW 7 8])
    (mkWorld 9 [0; 3; 6] [] []) 3
    (mkWorld 9 [0; 3; 6] [(1, TerminateRequest); (4, TerminateRequest)] [0])
    eq_refl).
Defined.



End PMRSMoreFacts.

(** ** More facts about [DistributedReadingService] *)
Module DistMoreFacts.
Import Dist DistIter.

Lemma apply_sharding_idem (dp : dpipe) n i :
  apply_sharding (apply_sharding dp n i) n i = apply_sharding dp n i.
Proof.
  induction dp as [m|o src IH|m src IH|t src IH]; simpl; rewrite ?IH; reflexivity.
Qed.





(** X8: after [initialize], [initialize_iteration] broadcasts the seed over
    the [gloo] group made with the service's timeout, seeds the pipeline
    with the value rank 0 drew, and keeps the stored pipeline (with its
    [FullSync] tail) and every other field. *)
Theorem initialize_iteration_after_initialize st rt dp dp1 st1 (bcast : Z) :
  initialize st rt dp = Ok (dp1, st1) ->
  initialize_iteration st1 bcast =
    (Some (mkGroup "gloo" (timeout st)), IterOk st1 bcast) /\
  datapipe st1 = Some dp1 /\ tail_fullsyncs dp1 <> 0.
Proof.
  unfold initialize.
  destruct (negb (is_available rt && is_initialized rt)); [discriminate|].
  intros H. injection H as <- <-.
  split; [reflexivity|]. split; [reflexivity|].
  destruct (negb (is_fullsync (apply_sharding dp (get_world_size rt) (get_rank rt))))
    eqn:E; simpl; [discriminate|].
  destruct (apply_sharding dp (get_world_size rt) (get_rank rt)); simpl in E |- *;
    discriminate.
Qed.

Lemma initialize_iteration_after_initialize_witness :
  initialize_iteration
    (mkDService 2 1 (Some (FullSync 1800 (Source "src"))) 1800
       (Some (mkGroup "gloo" 1800))) 42%Z =
    (Some (mkGroup "gloo" 1800),
     IterOk (mkDService 2 1 (Some (FullSync 1800 (Source "src"))) 1800
               (Some (mkGroup "gloo" 1800))) 42%Z) /\
  datapipe (mkDService 2 1 (Some (FullSync 1800 (Source "src"))) 1800
              (Some (mkGroup "gloo" 1800))) = Some (FullSync 1800 (Source "src")) /\
  tail_fullsyncs (FullSync 1800 (Source "src")) <> 0.
Proof.
  apply (initialize_iteration_after_initialize (mkDService 1 0 None 1800 None)
           (mkRuntime true true 2 1) (Source "src")).
  reflexivity.
Defined.

(** X9: [finalize] drops the process group but keeps the stored pipeline,
    so a later [initialize_iteration] still succeeds, now broadcasting the
    seed over the default group instead of the [gloo] group; a second
    [finalize] changes nothing. *)
Theorem iteration_after_finalize_uses_default_group st rt dp dp1 st1 (bcast : Z) :
  initialize st rt dp = Ok (dp1, st1) ->
  initialize_iteration (finalize st1) bcast = (None, IterOk (finalize st1) bcast) /\
  datapipe (finalize st1) = Some dp1 /\ finalize (finalize st1) = finalize st1.
Proof.
  unfold initialize.
  destruct (negb (is_available rt && is_initialized rt)); [discriminate|].
  intros H. injection H as <- <-. repeat split.
Qed.

Lemma iteration_after_finalize_uses_default_group_witness :
  initialize_iteration
    (finalize (mkDService 2 1 (Some (FullSync 1800 (Source "src"))) 1800
                 (Some (mkGroup "gloo" 1800)))) 7%Z =
    (None, IterOk (mkDService 2 1 (Some (FullSync 1800 (Source "src"))) 1800 None) 7%Z) /\
  datapipe (finalize (mkDService 2 1 (Some (FullSync 1800 (Source "src"))) 1800
                        (Some (mkGroup "gloo" 1800)))) = Some (FullSync 1800 (Source "src")) /\
  finalize (finalize (mkDService 2 1 (Some (FullSync 1800 (Source "src"))) 1800
                        (Some (mkGroup "gloo" 1800)))) =
    finalize (mkDService 2 1 (Some (FullSync 1800 (Source "src"))) 1800
                (Some (mkGroup "gloo" 1800))).
Proof.
  apply (iteration_after_finalize_uses_default_group (mkDService 1 0 None 1800 None)
           (mkRuntime true true 2 1) (Source "src")).
  reflexivity.
Defined.

End DistMoreFacts.

(** ** Facts about [MultiProcessingReadingService] *)
Module MPRSFacts.
Import MPRS.

(** X10: [finalize] shuts down the live iterator of the [DataLoader] only
    when [persistent_workers] is set, and drops it, so a second [finalize]
    shuts down nothing; without persistent workers it changes nothing. *)
Theorem mprs_finalize_shuts_down_at_most_once {A : Type} (st : mservice A) :
  snd (finalize (fst (finalize st))) = [] /\
  (persistent_workers A st = false -> finalize st = (st, [])) /\
  (forall d it, persistent_workers A st = true -> dl_ A st = Some d ->
     _iterator A d = Some it -> snd (finalize st) = [it]).
Proof.
  destruct st as [nw pm tm wi mc pf pw d0]; simpl.
  split; [|split].
  - destruct pw; [|reflexivity]. destruct d0 as [d|]; [|reflexivity].
    destruct d as [? ? ? ? ? ? ? ? ? ? [it|]]; reflexivity.
  - intros ->. reflexivity.
  - intros d it -> -> Hi. unfold finalize. simpl. rewrite Hi. reflexivity.
Qed.

Lemma mprs_finalize_shuts_down_at_most_once_witness :
  snd (finalize (fst (finalize (mkMService 2 false 0 None None 2 true
         (Some (mkDL [1; 2; 3] 2 false 0 None None 2 true _collate_no_op 1 (Some 5))))))) = [] /\
  (persistent_workers nat (mkMService 2 false 0 None None 2 true
         (Some (mkDL [1; 2; 3] 2 false 0 None None 2 true _collate_no_op 1 (Some 5)))) = false ->
   finalize (mkMService 2 false 0 None None 2 true
         (Some (mkDL [1; 2; 3] 2 false 0 None None 2 true _collate_no_op 1 (Some 5)))) =
   (mkMService 2 false 0 None None 2 true
         (Some (mkDL [1; 2; 3] 2 false 0 None None 2 true _collate_no_op 1 (Some 5))), [])) /\
  snd (finalize (mkMService 2 false 0 None None 2 true
         (Some (mkDL [1; 2; 3] 2 false 0 None None 2 true _collate_no_op 1 (Some 5))))) = [5].
Proof.
  destruct (mprs_finalize_shuts_down_at_most_once (mkMService 2 false 0 None None 2 true
         (Some (mkDL [1; 2; 3] 2 false 0 None None 2 true _collate_no_op 1 (Some 5)))))
    as [H1 [H2 H3]].
  split; [exact H1|]. split; [exact H2|].
  exact (H3 _ 5 eq_refl eq_refl eq_refl).
Defined.

(** X11: right after [initialize], [finalize] does nothing: the new
    [DataLoader] stored in [self.dl_] has no iterator yet, whatever
    [persistent_workers] is. *)
Theorem mprs_finalize_after_initialize_noop {A : Type} (st : mservice A) datapipe d st' :
  initialize st datapipe = (d, st') ->
  dl_ A st' = Some d /\ finalize st' = (st', []).
Proof.
  unfold initialize. intros H. injection H as <- <-. simpl. split; [reflexivity|].
  unfold finalize. simpl. destruct (persistent_workers A st); reflexivity.
Qed.

Lemma mprs_finalize_after_initialize_noop_witness :
  dl_ nat (set_dl (mkMService 2 false 0 None None 2 true None)
    (Some (mkDL [1; 2] 2 false 0 None None 2 true _collate_no_op 1 None))) =
    Some (mkDL [1; 2] 2 false 0 None None 2 true _collate_no_op 1 None) /\
  finalize (set_dl (mkMService 2 false 0 None None 2 true None)
    (Some (mkDL [1; 2] 2 false 0 None None 2 true _collate_no_op 1 None))) =
  (set_dl (mkMService 2 false 0 None None 2 true None)
    (Some (mkDL [1; 2] 2 false 0 None None 2 true _collate_no_op 1 None)), []).
Proof.
  apply (mprs_finalize_after_initialize_noop (mkMService 2 false 0 None None 2 true None)
           [1; 2]).
  reflexivity.
Defined.



End MPRSFacts.
